(** * Workflow compilation of graphic-walker: [utils/workflow.ts]

    A shallow embedding of [walkExpression], [deduper], [treeShake],
    [toWorkflow], [addTransformForQuery], [addFilterForQuery] and
    [processExpression], with the properties of the specification that
    speak about them. *)

From stdpp Require Import gmap strings list fin_maps.
From Equations Require Import Equations.

Open Scope string_scope.
Open Scope list_scope.

(** ** Data model *)

(** A JavaScript [number], as far as the code looks at one: an integer, or
    one of the three special values. *)
Inductive number : Type :=
| Num (z : Z)
| NaN
| Infinity
| NegInfinity.

#[global] Instance number_eq_dec : EqDecision number.
Proof. solve_decision. Defined.

(** Truthiness of a number: every number but [0] and [NaN]. *)
Definition number_truthy (n : number) : bool :=
  match n with
  | Num z => negb (z =? 0)%Z
  | NaN => false
  | Infinity | NegInfinity => true
  end.

(** Truthiness of an optional string property: [undefined] and the empty
    string are falsy. *)
Definition string_truthy (s : option string) : bool :=
  match s with
  | Some s => negb (String.eqb s "")
  | None => false
  end.

(** An entry of a paint dictionary.  The code reads and writes [name]; the
    interface of the repository gives an entry a colour too, which stands
    here for every property of an entry other than its name.

    [IPaintMap] is the payload of a parameter of type ['map'].  Its
    dictionary is a JavaScript object indexed by colour numbers.  The
    object that [processExpression] builds has no [usedColor] property, so
    the property is optional here. *)
Module Paint.
Record Entry : Type := mkEntry {
  name : string;
  color : option string;
}.

Record IPaintMap : Type := mkPaintMap {
  x : string;
  y : string;
  domainX : number * number;
  domainY : number * number;
  map : string;
  dict : gmap N Entry;
  usedColor : option (list N);
  mapwidth : number;
}.
End Paint.

(** [IExpression] and its parameters.  A parameter is dispatched on its
    [type] tag: ['field'], ['expression'] and ['map'] are the tags the code
    looks at, [POther] is a parameter with any other tag. *)
Inductive IExpression : Type :=
| mkExpression (op : string) (params : list IExpParameter) (as_ : string)
with IExpParameter : Type :=
| PField (value : string)
| PExpression (value : IExpression)
| PMap (value : Paint.IPaintMap)
| POther (type : string) (value : string).

Definition op (exp : IExpression) : string :=
  let 'mkExpression o _ _ := exp in o.
Definition params (exp : IExpression) : list IExpParameter :=
  let 'mkExpression _ ps _ := exp in ps.
Definition as_ (exp : IExpression) : string :=
  let 'mkExpression _ _ a := exp in a.

(** ** [walkExpression] *)

(** The callback [each] is a state transformer: [each field s] is the
    state after [each(field)] ran in state [s]. *)
Fixpoint walkExpression {S : Type} (expression : IExpression)
    (each : string → S → S) (s : S) {struct expression} : S :=
  let 'mkExpression _ params _ := expression in
  (fix params_loop (ps : list IExpParameter) (s : S) {struct ps} : S :=
     match ps with
     | [] => s
     | param :: ps' =>
         params_loop ps'
           match param with
           | PField value => each value s
           | PExpression value => walkExpression value each s
           | _ => s
           end
     end) params s.

(** ** [treeShake] *)

(** An entry of a transform step: a computed field and its expression. *)
Module Transform.
Record t : Type := mk {
  key : string;
  expression : IExpression;
}.
End Transform.
Abbreviation ITransform := Transform.t.

(** The [dependencies] set built by one round of the loop. *)
Definition dependencies_of (currentFields : list ITransform) : gset string :=
  foldl (fun deps f => walkExpression (Transform.expression f) (fun field deps => {[field]} ∪ deps) deps)
        ∅ currentFields.

(** The [while] loop of [treeShake] on its two variables.  A round either
    empties [currentFields] or makes [rest] shorter. *)
Definition loop_measure (currentFields rest : list ITransform) : nat :=
  length rest + (if currentFields is [] then 0 else 1).

Equations? treeShake_loop (currentFields rest : list ITransform)
  : list ITransform * list ITransform
  by wf (loop_measure currentFields rest) lt :=
treeShake_loop [] rest := ([], rest);
treeShake_loop (f :: fs) [] := (f :: fs, []);
treeShake_loop (f :: fs) (r :: rs) :=
  let dependencies := dependencies_of (f :: fs) in
  let nextFields := filter (fun g => Transform.key g ∈ dependencies) (r :: rs) in
  treeShake_loop nextFields (filter (fun g => Transform.key g ∉ dependencies) (r :: rs)).
Proof.
  clear treeShake_loop. subst nextFields dependencies. unfold loop_measure.
  set (deps := dependencies_of (f :: fs)).
  set (l := r :: rs).
  pose proof (filter_app_complement (λ g, Transform.key g ∈ deps) l) as Hp.
  apply Permutation_length in Hp. rewrite length_app in Hp.
  destruct (filter (λ g, Transform.key g ∈ deps) l) as [|n ns]; simpl in Hp; subst l; simpl length in *; lia.
Qed.

Definition treeShake (computedFields : list ITransform) (viewKeys : list string)
  : list ITransform :=
  let usedFields : gset string := list_to_set viewKeys in
  let result := filter (fun f => Transform.key f ∈ usedFields) computedFields in
  let currentFields := result in
  let rest := filter (fun f => Transform.key f ∉ usedFields) computedFields in
  let '(currentFields, rest) := treeShake_loop currentFields rest in
  result.

(** ** JavaScript containers *)

(** A [Set] keeps its elements in insertion order, and holds objects by
    identity; [ident] gives the identity of an element (the element itself
    for strings). *)
Module JSSet.
Section with_identity.
Context {A K : Type} `{EqDecision K} (ident : A → K).

Definition has (s : list A) (a : A) : bool :=
  bool_decide (ident a ∈ ident <$> s).

Definition add (s : list A) (a : A) : list A :=
  if has s a then s else s ++ [a].

(** [new Set(items)] *)
Definition of_list (items : list A) : list A := foldl add [] items.
End with_identity.
End JSSet.

(** A [Map] with string keys, as the list of its entries in insertion
    order: [set] on a key that is present replaces the value in place. *)
Module JSMap.
Section with_values.
Context {T : Type}.

Fixpoint set (m : list (string * T)) (k : string) (v : T) : list (string * T) :=
  match m with
  | [] => [(k, v)]
  | (k', v') :: m' => if decide (k' = k) then (k, v) :: m' else (k', v') :: set m' k v
  end.

Definition values (m : list (string * T)) : list T := snd <$> m.
End with_values.
End JSMap.

(** ** [deduper] *)

Definition deduper {T : Type} (items : list T) (keyF : T → string) : list T :=
  let map := foldl (fun map x => JSMap.set map (keyF x) x) [] items in
  JSMap.values map.

(** ** [processExpression] *)

(** [Object.fromEntries]: a later entry overrides an earlier one. *)
Definition fromEntries {V : Type} (entries : list (N * V)) : gmap N V :=
  foldl (fun o e => <[e.1 := e.2]> o) ∅ entries.

(** The dictionary of the rewritten map.  [usedColor.map] throws when
    [usedColor] is missing, and [dict[i].name] throws when the object has no
    property [i]: the result is [None] then. *)
Definition compactDict (value : Paint.IPaintMap) : option (gmap N Paint.Entry) :=
  let dict := <[255%N := Paint.mkEntry "" None]> (Paint.dict value) in
  usedColor ← Paint.usedColor value;
  entries ← mapM (fun i => e ← dict !! i; Some (i, Paint.mkEntry (Paint.name e) None))
                 usedColor;
  Some (fromEntries entries).

Definition processParam (x : IExpParameter) : option IExpParameter :=
  match x with
  | PMap value =>
      dict ← compactDict value;
      Some (PMap {| Paint.x := Paint.x value;
                    Paint.y := Paint.y value;
                    Paint.domainX := Paint.domainX value;
                    Paint.domainY := Paint.domainY value;
                    Paint.map := Paint.map value;
                    Paint.dict := dict;
                    Paint.usedColor := None;
                    Paint.mapwidth := Paint.mapwidth value |})
  | _ => Some x
  end.

Definition processExpression (exp : IExpression) : option IExpression :=
  if String.eqb (op exp) "paint" then
    params' ← mapM processParam (params exp);
    Some (mkExpression (op exp) params' (as_ exp))
  else Some exp.

(** ** Fields, filters and workflow steps *)

Inductive AnalyticType : Type := dimension | measure.

#[global] Instance AnalyticType_eq_dec : EqDecision AnalyticType.
Proof. solve_decision. Defined.

(** [IViewField] without its [dragId].  An optional boolean is kept by its
    truthiness: [computed] is [false] where the property is missing. *)
Module Field.
Record IViewField : Type := mk {
  fid : string;
  name : string;
  analyticType : AnalyticType;
  aggName : option string;
  computed : bool;
  expression : option IExpression;
}.

(** [{ ...x, aggName }] *)
Definition with_aggName (x : IViewField) (aggName : option string) : IViewField :=
  {| fid := fid x; name := name x; analyticType := analyticType x;
     aggName := aggName; computed := computed x; expression := expression x |}.
End Field.
Abbreviation IViewField := Field.IViewField.

(** A field object in a list of the view.  The raw view puts these objects
    in a [Set], which tells objects apart by identity: an object of the
    caller carries the identity the caller [Given] it, and the [i]-th object
    that the fold expansion creates is [Cloned i]. *)
Module Obj.
Inductive Id : Type := Given (n : nat) | Cloned (i : nat).

#[global] Instance Id_eq_dec : EqDecision Id.
Proof. solve_decision. Defined.

Record t : Type := mk { id : Id; field : IViewField }.

Definition fid (o : t) : string := Field.fid (field o).
Definition aggName (o : t) : option string := Field.aggName (field o).
Definition analyticType (o : t) : AnalyticType := Field.analyticType (field o).
End Obj.

(** A literal of a filter rule. *)
Inductive Literal : Type :=
| LString (s : string)
| LNumber (n : number).

(** A filter rule is dispatched on its [type] tag; [value] is the array
    (or the set, or the pair) of its literals. *)
Module Rule.
Record IFilterRule : Type := mk {
  type : string;
  value : list Literal;
}.
End Rule.
Abbreviation IFilterRule := Rule.IFilterRule.

(** [IFilterField]: a field with a rule ([null] until the user sets one)
    and the [enableAgg] flag. *)
Module FilterField.
Record IFilterField : Type := mk {
  field : IViewField;
  rule : option IFilterRule;
  enableAgg : bool;
}.

Definition fid (f : IFilterField) : string := Field.fid (field f).
Definition aggName (f : IFilterField) : option string := Field.aggName (field f).
Definition computed (f : IFilterField) : bool := Field.computed (field f).
End FilterField.
Abbreviation IFilterField := FilterField.IFilterField.

Module VisFilter.
Record IVisFilter : Type := mk {
  fid : string;
  rule : IFilterRule;
}.
End VisFilter.
Abbreviation IVisFilter := VisFilter.IVisFilter.

(** A measure of an aggregate view. *)
Module Measure.
Record t : Type := mk {
  field : string;
  agg : option string;
  asFieldKey : string;
}.
End Measure.

Inductive IViewQuery : Type :=
| Aggregate (groupBy : list string) (measures : list Measure.t)
| Raw (fields : list string).

Inductive SortDirection : Type := none | ascending | descending.

#[global] Instance SortDirection_eq_dec : EqDecision SortDirection.
Proof. solve_decision. Defined.

Inductive IDataQueryWorkflowStep : Type :=
| FilterStep (filters : list IVisFilter)
| TransformStep (transform : list ITransform)
| ViewStep (query : list IViewQuery)
| SortStep (by_ : list string) (sort : SortDirection).

(** The [type] tag of a step. *)
Inductive StepType : Type := filter_ | transform_ | view_ | sort_.

#[global] Instance StepType_eq_dec : EqDecision StepType.
Proof. solve_decision. Defined.

Definition step_type (step : IDataQueryWorkflowStep) : StepType :=
  match step with
  | FilterStep _ => filter_
  | TransformStep _ => transform_
  | ViewStep _ => view_
  | SortStep _ _ => sort_
  end.

Module Payload.
Record IDataQueryPayload : Type := mk {
  workflow : list IDataQueryWorkflowStep;
  limit : option number;
}.
End Payload.
Abbreviation IDataQueryPayload := Payload.IDataQueryPayload.

(** ** Effects of [toWorkflow]

    [createFilter] adds to the set [viewKeys] and writes to the console;
    [processExpression] may throw.  A computation takes the state to a
    result, [None] after a throw, and the state it leaves. *)
Record Env : Type := mkEnv {
  viewKeys : list string;
  console : list IFilterRule;
}.

Definition M (A : Type) : Type := Env → option A * Env.

#[global] Instance M_ret : MRet M := fun A a env => (Some a, env).

#[global] Instance M_bind : MBind M := fun A B k m env =>
  match m env with
  | (Some a, env') => k a env'
  | (None, env') => (None, env')
  end.

(** [viewKeys.add(fid)] *)
Definition viewKeys_add (fid : string) : M unit := fun env =>
  (Some (), {| viewKeys := JSSet.add id (viewKeys env) fid; console := console env |}).

(** [[...viewKeys]] *)
Definition viewKeys_get : M (list string) := fun env => (Some (viewKeys env), env).

(** [console.error('unknown rule', rule)] *)
Definition console_error (rule : IFilterRule) : M unit := fun env =>
  (Some (), {| viewKeys := viewKeys env; console := console env ++ [rule] |}).

(** A call that throws, or returns its value. *)
Definition attempt {A : Type} (r : option A) : M A := fun env => (r, env).

(** ** [toWorkflow] *)

Definition is_some {A : Type} (o : option A) : bool :=
  if o is Some _ then true else false.

(** The [i]-th element of an array, [undefined] out of range. *)
Definition at_index {A : Type} (l : list A) (i : nat) : option A := l !! i.

Section Workflow.
(** What the file imports: the two reserved identifiers of [constants],
    the two key functions of [utils/index], and the built-in conversions
    [new Date(v).getTime()] and [Number(v)] (of a literal, or of
    [undefined]). *)
Variables MEA_KEY_ID MEA_VAL_ID : string.
Variable getMeaAggKey : string → option string → string.
Variable getFilterMeaAggKey : IFilterField → string.
Variable Date_getTime : option Literal → number.
Variable Number_ : option Literal → number.

Definition createFilter (f : IFilterField) : M IVisFilter :=
  let fid := getFilterMeaAggKey f in
  _ ← viewKeys_add fid;
  rule ← attempt (FilterField.rule f);
  if String.eqb (Rule.type rule) "one of" then
    mret (VisFilter.mk fid (Rule.mk "one of" (Rule.value rule)))
  else if String.eqb (Rule.type rule) "temporal range" then
    let range := [LNumber (Date_getTime (at_index (Rule.value rule) 0));
                  LNumber (Date_getTime (at_index (Rule.value rule) 1))] in
    mret (VisFilter.mk fid (Rule.mk "temporal range" range))
  else if String.eqb (Rule.type rule) "not in" then
    mret (VisFilter.mk fid (Rule.mk "not in" (Rule.value rule)))
  else if String.eqb (Rule.type rule) "range" then
    let range := [LNumber (Number_ (at_index (Rule.value rule) 0));
                  LNumber (Number_ (at_index (Rule.value rule) 1))] in
    mret (VisFilter.mk fid (Rule.mk "range" range))
  else
    _ ← console_error rule;
    mret (VisFilter.mk fid rule).

(** *** Fold expansion *)

Definition hasFold (viewDimensionsRaw viewMeasuresRaw : list Obj.t) : bool :=
  is_some (find (fun x => String.eqb (Obj.fid x) MEA_KEY_ID) viewDimensionsRaw)
  && is_some (find (fun x => String.eqb (Obj.fid x) MEA_VAL_ID) viewMeasuresRaw).

(** The objects [{ ...x, aggName }] made from the fold list.  For an
    identifier that [allFields] does not have, [x] is [undefined] and the
    object has the one property [aggName]: it is [None] here.  Every one
    of these objects is truthy, so [filter(Boolean)] keeps them all. *)
Definition newFields (allFields : list IViewField) (folds : list string)
    (aggName : option string) : list (option Obj.t) :=
  filter (fun _ => True)
    (imap (fun i x => (fun x => Obj.mk (Obj.Cloned i) (Field.with_aggName x aggName)) <$> x)
       ((fun k => find (fun x => String.eqb (Field.fid x) k) allFields) <$> folds)).

(** [x?.analyticType === role] *)
Definition has_role (role : AnalyticType) (x : option Obj.t) : bool :=
  match x with
  | Some x => bool_decide (Obj.analyticType x = role)
  | None => false
  end.

(** The aggregation function that the clones take: that of the first
    measure with the reserved identifier (there is one where this is
    used). *)
Definition foldAggName (viewMeasuresRaw : list Obj.t) : option string :=
  find (fun x => String.eqb (Obj.fid x) MEA_VAL_ID) viewMeasuresRaw ≫= Obj.aggName.

Definition viewDimensions (allFields : list IViewField)
    (viewDimensionsRaw viewMeasuresRaw : list Obj.t) (folds : list string) : list Obj.t :=
  let viewDimensions :=
    filter (fun x => Obj.fid x ≠ MEA_KEY_ID) viewDimensionsRaw in
  if hasFold viewDimensionsRaw viewMeasuresRaw then
    let aggName := foldAggName viewMeasuresRaw in
    viewDimensions
      ++ omap id (filter (fun x => has_role dimension x) (newFields allFields folds aggName))
  else viewDimensions.

Definition viewMeasures (allFields : list IViewField)
    (viewDimensionsRaw viewMeasuresRaw : list Obj.t) (folds : list string) : list Obj.t :=
  let viewMeasures :=
    filter (fun x => Obj.fid x ≠ MEA_VAL_ID) viewMeasuresRaw in
  if hasFold viewDimensionsRaw viewMeasuresRaw then
    let aggName := foldAggName viewMeasuresRaw in
    viewMeasures
      ++ omap id (filter (fun x => has_role measure x) (newFields allFields folds aggName))
  else viewMeasures.

(** *** The aggregation decision *)

Definition aggergatedFilter (viewFilters : list IFilterField) : list IFilterField :=
  filter (fun f => FilterField.enableAgg f
                   && string_truthy (FilterField.aggName f)
                   && is_some (FilterField.rule f)) viewFilters.

Definition aggregateOn (viewFilters : list IFilterField) (viewMeasures : list Obj.t)
    : list (string * option string) :=
  ((fun f => (Obj.fid f, Obj.aggName f))
     <$> filter (fun f => string_truthy (Obj.aggName f)) viewMeasures)
  ++ ((fun f => (FilterField.fid f, FilterField.aggName f)) <$> aggergatedFilter viewFilters).

Definition aggergated (viewFilters : list IFilterField)
    (viewDimensions viewMeasures : list Obj.t) (defaultAggregated : bool) : bool :=
  defaultAggregated
  && (negb (Nat.eqb (length (aggregateOn viewFilters viewMeasures)) 0)
      || (Nat.eqb (length viewMeasures) 0 && Nat.ltb 0 (length viewDimensions))).

Definition toMeasure (f : IViewField) : Measure.t :=
  {| Measure.field := Field.fid f;
     Measure.agg := Field.aggName f;
     Measure.asFieldKey := getMeaAggKey (Field.fid f) (Field.aggName f) |}.

Definition viewQuery (viewFilters : list IFilterField)
    (viewDimensions viewMeasures : list Obj.t) (defaultAggregated : bool) : IViewQuery :=
  if aggergated viewFilters viewDimensions viewMeasures defaultAggregated then
    Aggregate
      (deduper (Obj.fid <$> viewDimensions) (fun x => x))
      (deduper (toMeasure <$> ((Obj.field <$> viewMeasures)
                               ++ (FilterField.field <$> aggergatedFilter viewFilters)))
               Measure.asFieldKey)
  else
    Raw (Obj.fid <$> JSSet.of_list Obj.id (viewDimensions ++ viewMeasures)).

(** [sort !== 'none' && limit && limit !== -1] *)
Definition sorted (sort : SortDirection) (limit : option number) : bool :=
  bool_decide (sort ≠ none)
  && match limit with
     | Some limit => number_truthy limit && bool_decide (limit ≠ Num (-1))
     | None => false
     end.

(** A step is emitted when its list is not empty. *)
Definition step_if_nonempty {A : Type} (mk : list A → IDataQueryWorkflowStep)
    (l : list A) : option IDataQueryWorkflowStep :=
  if negb (Nat.eqb (length l) 0) then Some (mk l) else None.

(** *** The assembler *)

(** The computed fields of [allFields] with their expressions processed,
    the first argument of the call of [treeShake]; [None] when
    [processExpression] throws on one of them. *)
Definition processedFields (allFields : list IViewField) : option (list ITransform) :=
  mapM (fun f => e ← Field.expression f; e' ← processExpression e;
                 Some (Transform.mk (Field.fid f) e'))
       (filter (fun f => Field.computed f && is_some (Field.expression f)) allFields).

Definition toWorkflow_body (viewFilters : list IFilterField) (allFields : list IViewField)
    (viewDimensionsRaw viewMeasuresRaw : list Obj.t) (defaultAggregated : bool)
    (sort : SortDirection) (folds : list string) (limit : option number)
    : M (list IDataQueryWorkflowStep) :=
  let viewDimensions := viewDimensions allFields viewDimensionsRaw viewMeasuresRaw folds in
  let viewMeasures := viewMeasures allFields viewDimensionsRaw viewMeasuresRaw folds in
  (* First, to apply filters on the detailed data *)
  filters ← mapM createFilter
    (filter (fun f => negb (FilterField.computed f) && is_some (FilterField.rule f)
                      && negb (FilterField.enableAgg f)) viewFilters);
  let filterWorkflow := step_if_nonempty FilterStep filters in
  (* Second, to transform the data by rows 1 by 1 *)
  processed ← attempt (processedFields allFields);
  keys ← viewKeys_get;
  let computedFields := treeShake processed keys in
  let transformWorkflow := step_if_nonempty TransformStep computedFields in
  (* Third, apply filter on the transformed data *)
  computedFilters ← mapM createFilter
    (filter (fun f => FilterField.computed f && is_some (FilterField.rule f)
                      && negb (FilterField.enableAgg f)) viewFilters);
  let computedWorkflow := step_if_nonempty FilterStep computedFilters in
  (* Finally, to apply the aggregation *)
  let aggergatedFilter := aggergatedFilter viewFilters in
  let aggergated := aggergated viewFilters viewDimensions viewMeasures defaultAggregated in
  let viewQueryWorkflow :=
    Some (ViewStep [viewQuery viewFilters viewDimensions viewMeasures defaultAggregated]) in
  (* Apply aggregation Filter after aggregation. *)
  aggFilterWorkflow ←
    (if aggergated && Nat.ltb 0 (length viewDimensions)
        && Nat.ltb 0 (length aggergatedFilter) then
       filters ← mapM createFilter aggergatedFilter;
       mret (Some (FilterStep filters))
     else mret None);
  let sortWorkflow :=
    if sorted sort limit then
      Some (SortStep
              ((fun f => if aggergated then getMeaAggKey (Obj.fid f) (Obj.aggName f)
                         else Obj.fid f) <$> viewMeasures)
              sort)
    else None in
  mret (omap id [filterWorkflow; transformWorkflow; computedWorkflow;
                 viewQueryWorkflow; aggFilterWorkflow; sortWorkflow]).

(** The steps that [toWorkflow] returns, [None] when it throws, and what
    it wrote to the console. *)
Definition toWorkflow (viewFilters : list IFilterField) (allFields : list IViewField)
    (viewDimensionsRaw viewMeasuresRaw : list Obj.t) (defaultAggregated : bool)
    (sort : SortDirection) (folds : list string) (limit : option number)
    : option (list IDataQueryWorkflowStep) * list IFilterRule :=
  let viewDimensions := viewDimensions allFields viewDimensionsRaw viewMeasuresRaw folds in
  let viewMeasures := viewMeasures allFields viewDimensionsRaw viewMeasuresRaw folds in
  let viewKeys :=
    JSSet.of_list id ((Obj.fid <$> viewDimensions) ++ (Obj.fid <$> viewMeasures)
                      ++ (FilterField.fid <$> viewFilters)) in
  let '(steps, env) :=
    toWorkflow_body viewFilters allFields viewDimensionsRaw viewMeasuresRaw
      defaultAggregated sort folds limit {| viewKeys := viewKeys; console := [] |} in
  (steps, console env).

(** The six slots of [toWorkflow], for the lists [vd] and [vm] of the
    view after the fold expansion. *)
Definition slots (viewFilters : list IFilterField) (vd vm : list Obj.t)
    (defaultAggregated : bool) (sort : SortDirection) (limit : option number)
    (filters : list IVisFilter) (computedFields : list ITransform)
    (computedFilters aggFilters : list IVisFilter)
    : list (option IDataQueryWorkflowStep) :=
  let aggergated := aggergated viewFilters vd vm defaultAggregated in
  [ step_if_nonempty FilterStep filters;
    step_if_nonempty TransformStep computedFields;
    step_if_nonempty FilterStep computedFilters;
    Some (ViewStep [viewQuery viewFilters vd vm defaultAggregated]);
    (if aggergated && Nat.ltb 0 (length vd)
        && Nat.ltb 0 (length (aggergatedFilter viewFilters))
     then Some (FilterStep aggFilters) else None);
    (if sorted sort limit then
       Some (SortStep
               ((fun f => if aggergated then getMeaAggKey (Obj.fid f) (Obj.aggName f)
                          else Obj.fid f) <$> vm) sort)
     else None) ].
End Workflow.

(** ** The merge operations *)

(** [Array.prototype.findIndex]: the index of the first element that
    passes the test, [-1] when there is none. *)
Fixpoint findIndex {A : Type} (test : A → bool) (l : list A) : Z :=
  match l with
  | [] => -1
  | a :: l' => if test a then 0 else
                 let i := findIndex test l' in
                 if (i <? 0)%Z then -1 else (i + 1)%Z
  end.

Definition is_transform (step : IDataQueryWorkflowStep) : bool :=
  bool_decide (step_type step = transform_).

Definition is_filter (step : IDataQueryWorkflowStep) : bool :=
  bool_decide (step_type step = filter_).

Definition addTransformForQuery (query : IDataQueryPayload) (transform : list ITransform)
    : IDataQueryPayload :=
  if Nat.eqb (length transform) 0 then query else
  let existTransform := findIndex is_transform (Payload.workflow query) in
  if (-1 <? existTransform)%Z then
    {| Payload.workflow :=
         imap (fun i x =>
                 match x with
                 | TransformStep x_transform =>
                     if (Z.of_nat i =? existTransform)%Z then
                       let transforms : gset string :=
                         list_to_set (Transform.key <$> x_transform) in
                       TransformStep
                         (x_transform
                            ++ filter (fun t => Transform.key t ∉ transforms) transform)
                     else x
                 | _ => x
                 end) (Payload.workflow query);
       Payload.limit := Payload.limit query |}
  else
    let transformQuery := TransformStep transform in
    {| Payload.workflow := transformQuery :: Payload.workflow query;
       Payload.limit := Payload.limit query |}.

Definition addFilterForQuery (query : IDataQueryPayload) (filters : list IVisFilter)
    : IDataQueryPayload :=
  if Nat.eqb (length filters) 0 then query else
  let existFilter := findIndex is_filter (Payload.workflow query) in
  if (-1 <? existFilter)%Z then
    {| Payload.workflow :=
         imap (fun i x =>
                 match x with
                 | FilterStep x_filters =>
                     if (Z.of_nat i =? existFilter)%Z then FilterStep (filters ++ x_filters)
                     else x
                 | _ => x
                 end) (Payload.workflow query);
       Payload.limit := Payload.limit query |}
  else
    let filterQuery := FilterStep filters in
    {| Payload.workflow := filterQuery :: Payload.workflow query;
       Payload.limit := Payload.limit query |}.

(** ** [chartToWorkflow] *)

(** What [chartToWorkflow] reads of a decoded chart: of its [config] the
    geometries, the limit, the default aggregation and the fold list; of
    its [encodings] the lists of field objects under the names of the
    channels (with [dimensions], [measures], [rows] and [columns] among
    them) and the filters.  Every one of them may be missing. *)
Module Chart.
Record Config : Type := mkConfig {
  geoms : option (list string);
  limit : option number;
  defaultAggregated : option bool;
  folds : option (list string);
}.

Record Encodings : Type := mkEncodings {
  channels : gmap string (list Obj.t);
  filters : option (list IFilterField);
}.

Record t : Type := mk {
  config : option Config;
  encodings : option Encodings;
}.
End Chart.

(** [n > 0] *)
Definition number_gt0 (n : number) : bool :=
  match n with
  | Num z => (0 <? z)%Z
  | Infinity => true
  | NaN | NegInfinity => false
  end.

Section ChartToWorkflow.
(** The imports of [toWorkflow], and those of [chartToWorkflow]: the
    decoder of [models/visSpecHistory], the channels of a geometry of
    [store/visualSpecStore], and [getSort] of [utils/index]. *)
Variables MEA_KEY_ID MEA_VAL_ID : string.
Variable getMeaAggKey : string → option string → string.
Variable getFilterMeaAggKey : IFilterField → string.
Variable Date_getTime : option Literal → number.
Variable Number_ : option Literal → number.
Variable IChartForExport : Type.
Variable decodeVisSpec : IChartForExport → Chart.t.
Variable viewEncodingKeys : string → list string.
Variable getSort : list Obj.t → list Obj.t → SortDirection.

(** [c.encodings?.[k] ?? []] *)
Definition channel (c : Chart.t) (k : string) : list Obj.t :=
  default [] (Chart.encodings c ≫= fun e => Chart.channels e !! k).

(** [c.config?.limit ?? -1] *)
Definition chartLimit (c : Chart.t) : number :=
  default (Num (-1)) (Chart.config c ≫= Chart.limit).

(** The second argument of the call of [toWorkflow]. *)
Definition chartFields (c : Chart.t) : list IViewField :=
  Obj.field <$> (channel c "dimensions" ++ channel c "measures").

(** The payload, [None] when [toWorkflow] throws, and what was written to
    the console. *)
Definition chartToWorkflow (chart : IChartForExport)
    : option IDataQueryPayload * list IFilterRule :=
  let c := decodeVisSpec chart in
  let viewEncodingFields :=
    viewEncodingKeys
      (default "auto" (geoms ← Chart.config c ≫= Chart.geoms; (geoms !! 0 : option string)))
    ≫= channel c in
  let rows := channel c "rows" in
  let columns := channel c "columns" in
  let limit := chartLimit c in
  let '(workflow, log) :=
    toWorkflow MEA_KEY_ID MEA_VAL_ID getMeaAggKey getFilterMeaAggKey Date_getTime Number_
      (default [] (Chart.encodings c ≫= Chart.filters))
      (chartFields c)
      (filter (fun x => Obj.analyticType x = dimension) viewEncodingFields)
      (filter (fun x => Obj.analyticType x = measure) viewEncodingFields)
      (default true (Chart.config c ≫= Chart.defaultAggregated))
      (getSort rows columns)
      (default [] (Chart.config c ≫= Chart.folds))
      (Some limit) in
  ((fun workflow =>
      {| Payload.workflow := workflow;
         Payload.limit := if number_gt0 limit then Some limit else None |}) <$> workflow,
   log).
End ChartToWorkflow.

(** * The specification's notions and its examples *)

(** The fields that an expression refers to, as [walkExpression] visits
    them. *)
Definition fieldRefs (e : IExpression) : gset string :=
  walkExpression e (fun field refs => {[field]} ∪ refs) ∅.

(** The definitions of a pool that a view requires: those whose identifier
    the view uses, and those that the expression of a required definition
    refers to. *)
Inductive required (pool : list ITransform) (used : list string) : ITransform → Prop :=
| required_used f :
    f ∈ pool → Transform.key f ∈ used → required pool used f
| required_dep f g :
    required pool used f → g ∈ pool →
    Transform.key g ∈ fieldRefs (Transform.expression f) → required pool used g.

(** A computed field [a] that refers to a computed field [b]. *)
Definition dep_a : ITransform := Transform.mk "a" (mkExpression "one" [PField "b"] "a").
Definition dep_b : ITransform := Transform.mk "b" (mkExpression "one" [] "b").

(** The paint example: [usedColor = [1, 2]] and a dictionary of three
    colours. *)
Definition paintDict : gmap N Paint.Entry :=
  {[ 1%N := Paint.mkEntry "A" None; 2%N := Paint.mkEntry "B" None;
     3%N := Paint.mkEntry "C" None ]}.

Definition paintValue : Paint.IPaintMap :=
  {| Paint.x := "x"; Paint.y := "y";
     Paint.domainX := (Num 0, Num 1); Paint.domainY := (Num 0, Num 1);
     Paint.map := ""; Paint.dict := paintDict;
     Paint.usedColor := Some [1%N; 2%N]; Paint.mapwidth := Num 1 |}.

Definition paintExample : IExpression :=
  mkExpression "paint" [PMap paintValue] "painted".

(** The entry that the rewritten dictionary has at a key: the name of the
    entry of the dictionary for a used colour, the empty name for the
    reserved colour [255], and none for a colour that is not used. *)
Definition compacted_entry (dict : gmap N Paint.Entry) (used : list N) (k : N)
    : option Paint.Entry :=
  if decide (k ∈ used) then
    if decide (k = 255%N) then Some (Paint.mkEntry "" None)
    else (fun e => Paint.mkEntry (Paint.name e) None) <$> dict !! k
  else None.

(** Every used colour of a map is the reserved one or in the dictionary. *)
Definition resolvable (value : Paint.IPaintMap) : Prop :=
  ∃ used, Paint.usedColor value = Some used
          ∧ ∀ i, i ∈ used → i = 255%N ∨ is_Some (Paint.dict value !! i).

(** A parameter and its rewriting by the compaction pass. *)
Definition compacted (x x' : IExpParameter) : Prop :=
  match x with
  | PMap value =>
      ∃ value' used,
        x' = PMap value' ∧ Paint.usedColor value = Some used
        ∧ (∀ k, Paint.dict value' !! k = compacted_entry (Paint.dict value) used k)
        ∧ Paint.x value' = Paint.x value ∧ Paint.y value' = Paint.y value
        ∧ Paint.domainX value' = Paint.domainX value
        ∧ Paint.domainY value' = Paint.domainY value
        ∧ Paint.map value' = Paint.map value
        ∧ Paint.mapwidth value' = Paint.mapwidth value
  | _ => x' = x
  end.

(** A transform step that has the key [x], and new transforms for the
    keys [x] and [y]. *)
Definition merge_x : ITransform := Transform.mk "x" (mkExpression "one" [] "x").
Definition merge_x' : ITransform := Transform.mk "x" (mkExpression "log2" [PField "v"] "x").
Definition merge_y : ITransform := Transform.mk "y" (mkExpression "log2" [PField "x"] "y").

Definition merge_query : IDataQueryPayload :=
  {| Payload.workflow := [TransformStep [merge_x]; ViewStep [Raw ["x"; "y"]]];
     Payload.limit := None |}.

(** The condition under which the view aggregates, on the lists [vd] and
    [vm] of the view after the fold expansion: the default aggregation is
    on, and a measure has an aggregation function, or a filter that is
    scoped to the aggregation has an aggregation function and a rule, or
    the view has dimensions and no measure. *)
Definition aggregation_triggers (defaultAggregated : bool)
    (viewFilters : list IFilterField) (vd vm : list Obj.t) : Prop :=
  defaultAggregated = true
  ∧ ((∃ f, f ∈ vm ∧ string_truthy (Obj.aggName f) = true)
     ∨ (∃ f, f ∈ viewFilters ∧ FilterField.enableAgg f = true
             ∧ string_truthy (FilterField.aggName f) = true
             ∧ is_Some (FilterField.rule f))
     ∨ (vm = [] ∧ vd ≠ [])).

(** The condition in the words of the specification, which asks no rule
    of the filter. *)
Definition spec_aggregation_triggers (defaultAggregated : bool)
    (viewFilters : list IFilterField) (vd vm : list Obj.t) : Prop :=
  defaultAggregated = true
  ∧ ((∃ f, f ∈ vm ∧ string_truthy (Obj.aggName f) = true)
     ∨ (∃ f, f ∈ viewFilters ∧ FilterField.enableAgg f = true
             ∧ string_truthy (FilterField.aggName f) = true)
     ∨ (vm = [] ∧ vd ≠ [])).

(** A limit in the words of the specification: a positive finite number. *)
Definition positive_finite (limit : option number) : Prop :=
  ∃ z, limit = Some (Num z) ∧ (0 < z)%Z.

(** The limits that pass the test of the code: a number that is given and
    is none of [0], [NaN] and [-1]. *)
Definition limited (limit : option number) : Prop :=
  ∃ n, limit = Some n ∧ n ≠ Num 0 ∧ n ≠ NaN ∧ n ≠ Num (-1).

(** The kinds of the six slots of a workflow, in their order. *)
Definition slot_types : list StepType :=
  [filter_; transform_; filter_; view_; filter_; sort_].

(** The rule kinds that [createFilter] knows. *)
Definition known_rule_types : list string :=
  ["one of"; "temporal range"; "not in"; "range"].

(** The identifiers that a view step names. *)
Definition view_fids (query : IViewQuery) : list string :=
  match query with
  | Aggregate groupBy measures => groupBy ++ (Measure.field <$> measures)
  | Raw fields => fields
  end.

(** The view steps and the sort steps of a workflow. *)
Definition view_steps (steps : list IDataQueryWorkflowStep) : list IDataQueryWorkflowStep :=
  filter (fun step => step_type step = view_) steps.

Definition sort_steps (steps : list IDataQueryWorkflowStep) : list IDataQueryWorkflowStep :=
  filter (fun step => step_type step = sort_) steps.

(** Modelled from the spec: the reserved identifiers of [constants] and the
    key functions of [utils/index] are not among the sources.  The
    properties below hold for all of them; the examples run the assembler
    on this instance, in which the output key of an aggregated field is
    composed of the identifier of the field and the name of the
    aggregation function, and the key of a filter is that output key when
    the filter is scoped to the aggregation and has a function. *)
Module Sample.
Definition MEA_KEY_ID : string := "gw_mea_key_fid".
Definition MEA_VAL_ID : string := "gw_mea_val_fid".

Definition getMeaAggKey (meaKey : string) (agg : option string) : string :=
  if string_truthy agg then meaKey +:+ "_" +:+ default "" agg else meaKey.

Definition getFilterMeaAggKey (f : IFilterField) : string :=
  if FilterField.enableAgg f && string_truthy (FilterField.aggName f)
  then getMeaAggKey (FilterField.fid f) (FilterField.aggName f)
  else FilterField.fid f.

Definition toNumber (v : option Literal) : number :=
  match v with
  | Some (LNumber n) => n
  | _ => NaN
  end.

Definition createFilter : IFilterField → M IVisFilter :=
  createFilter getFilterMeaAggKey toNumber toNumber.

Definition viewDimensions := viewDimensions MEA_KEY_ID MEA_VAL_ID.
Definition viewMeasures := viewMeasures MEA_KEY_ID MEA_VAL_ID.

Definition toWorkflow :=
  toWorkflow MEA_KEY_ID MEA_VAL_ID getMeaAggKey getFilterMeaAggKey toNumber toNumber.

(** Fields of a data set, and the two reserved fields. *)
Definition region : IViewField := Field.mk "region" "Region" dimension None false None.
Definition profit : IViewField := Field.mk "profit" "Profit" measure None false None.
Definition sales : IViewField := Field.mk "sales" "Sales" measure (Some "sum") false None.
Definition revenue : IViewField := Field.mk "revenue" "Revenue" measure None false None.
Definition cost : IViewField := Field.mk "cost" "Cost" measure (Some "mean") false None.
Definition keySentinel : IViewField :=
  Field.mk MEA_KEY_ID "Measure names" dimension None false None.
Definition valueSentinel : IViewField :=
  Field.mk MEA_VAL_ID "Measure values" measure (Some "sum") false None.

Definition allFields : list IViewField :=
  [region; profit; sales; revenue; cost; keySentinel; valueSentinel].

(** A filter on [sales] that is scoped to the aggregation and has a
    function, and no rule yet. *)
Definition ruleless : IFilterField :=
  {| FilterField.field := sales; FilterField.rule := None;
     FilterField.enableAgg := true |}.

(** A filter whose rule is of a kind that [createFilter] does not know. *)
Definition regexp_rule : IFilterRule := Rule.mk "regexp" [LString "^A"].

Definition regexp_filter : IFilterField :=
  {| FilterField.field := region; FilterField.rule := Some regexp_rule;
     FilterField.enableAgg := false |}.

Definition env0 : Env := {| viewKeys := ["region"]; console := [] |}.
End Sample.

(** An expression refers to a field when a parameter of type ['field']
    names it, in the expression or in an expression nested in it. *)
Inductive refers : IExpression → string → Prop :=
| refers_field o ps a k :
    PField k ∈ ps → refers (mkExpression o ps a) k
| refers_nested o ps a e k :
    PExpression e ∈ ps → refers e k → refers (mkExpression o ps a) k.

(** A rule of one of the kinds that [createFilter] knows. *)
Definition rule_known (rule : IFilterRule) : bool :=
  bool_decide (Rule.type rule ∈ known_rule_types).

(** The rules of unknown kinds among the rules of a list of filters. *)
Definition unknown_rules (l : list IFilterField) : list IFilterRule :=
  filter (fun rule => rule_known rule = false) (omap FilterField.rule l).

(** The filters of [toWorkflow] that go before the transform, and those
    that go after it. *)
Definition detailFilters (viewFilters : list IFilterField) : list IFilterField :=
  filter (fun f => negb (FilterField.computed f) && is_some (FilterField.rule f)
                   && negb (FilterField.enableAgg f)) viewFilters.

Definition transformedFilters (viewFilters : list IFilterField) : list IFilterField :=
  filter (fun f => FilterField.computed f && is_some (FilterField.rule f)
                   && negb (FilterField.enableAgg f)) viewFilters.

(** The identifiers of the filters of the filter steps of a workflow, and
    the entries of its transform steps, in the order of the steps. *)
Definition filter_fids (steps : list IDataQueryWorkflowStep) : list string :=
  steps ≫= fun step =>
    match step with
    | FilterStep filters => VisFilter.fid <$> filters
    | _ => []
    end.

Definition transform_entries (steps : list IDataQueryWorkflowStep) : list ITransform :=
  steps ≫= fun step =>
    match step with
    | TransformStep transform => transform
    | _ => []
    end.

(** Further inputs for the examples: filters of a known kind, a computed
    field, a payload with a filter step, and a chart.  The chart is its own
    decoded form, every geometry has the channels [columns], [rows] and
    [color], and the sort direction is that of the example. *)
Module Cases.
Definition range_rule : IFilterRule := Rule.mk "range" [LNumber (Num 1); LNumber (Num 5)].

Definition range_filter : IFilterField :=
  {| FilterField.field := Sample.profit; FilterField.rule := Some range_rule;
     FilterField.enableAgg := false |}.

Definition sum_filter : IFilterField :=
  {| FilterField.field := Sample.sales; FilterField.rule := Some range_rule;
     FilterField.enableAgg := true |}.

Definition log_profit : IViewField :=
  Field.mk "log_profit" "log2(profit)" measure None true
    (Some (mkExpression "log2" [PField "profit"] "log_profit")).

Definition unused : IViewField :=
  Field.mk "unused" "log2(sales)" measure None true
    (Some (mkExpression "log2" [PField "sales"] "unused")).

Definition allFields : list IViewField :=
  [Sample.region; Sample.profit; Sample.sales; log_profit; unused].

Definition filtered_query : IDataQueryPayload :=
  {| Payload.workflow :=
       [TransformStep [merge_x];
        FilterStep [VisFilter.mk "profit" range_rule];
        ViewStep [Raw ["profit"; "x"]]];
     Payload.limit := Some (Num 10) |}.

Definition viewEncodingKeys (geom : string) : list string := ["columns"; "rows"; "color"].

Definition getSort (rows columns : list Obj.t) : SortDirection := descending.

Definition chartToWorkflow : Chart.t → option IDataQueryPayload * list IFilterRule :=
  chartToWorkflow Sample.MEA_KEY_ID Sample.MEA_VAL_ID Sample.getMeaAggKey
    Sample.getFilterMeaAggKey Sample.toNumber Sample.toNumber
    Chart.t (fun chart => chart) viewEncodingKeys getSort.

Definition chart : Chart.t :=
  {| Chart.config :=
       Some {| Chart.geoms := Some ["bar"]; Chart.limit := Some (Num 20);
               Chart.defaultAggregated := None; Chart.folds := None |};
     Chart.encodings :=
       Some {| Chart.channels :=
                 {[ "dimensions" := [Obj.mk (Obj.Given 0) Sample.region];
                    "measures" := [Obj.mk (Obj.Given 1) Sample.sales];
                    "rows" := [Obj.mk (Obj.Given 2) Sample.region];
                    "columns" := [Obj.mk (Obj.Given 3) Sample.sales] ]};
               Chart.filters := None |} |}.
End Cases.

(** The clone that the fold expansion makes of a known field, in the words
    of the specification: a new object, the [i]-th of the fold, with the
    properties of the field and the aggregation function [aggName] of the
    reserved measure. *)
Definition spec_clone (i : nat) (x : IViewField) (aggName : option string) : Obj.t :=
  Obj.mk (Obj.Cloned i)
    {| Field.fid := Field.fid x;
       Field.name := Field.name x;
       Field.analyticType := Field.analyticType x;
       Field.aggName := aggName;
       Field.computed := Field.computed x;
       Field.expression := Field.expression x |}.

(** The clones of a role, in the words of the specification: for every
    identifier of the fold list, in its order and from the place [i] on,
    the clone of the known field of that identifier when the field has the
    role. *)
Fixpoint spec_fold_clones (i : nat) (role : AnalyticType) (aggName : option string)
    (allFields : list IViewField) (folds : list string) : list Obj.t :=
  match folds with
  | [] => []
  | k :: folds' =>
      let rest := spec_fold_clones (S i) role aggName allFields folds' in
      match find (fun x => String.eqb (Field.fid x) k) allFields with
      | Some x =>
          if decide (Field.analyticType x = role) then spec_clone i x aggName :: rest
          else rest
      | None => rest
      end
  end.

(** A filter of a filter step that is the normal form of a filter of the
    view: it has the derived identifier of the filter and a rule of the
    kind of its rule. *)
Definition normalised (getFilterMeaAggKey : IFilterField → string)
    (f : IFilterField) (v : IVisFilter) : Prop :=
  VisFilter.fid v = getFilterMeaAggKey f
  ∧ ∃ rule, FilterField.rule f = Some rule
            ∧ Rule.type (VisFilter.rule v) = Rule.type rule.

(** * Properties *)

(** ** Running the effects *)

Lemma bind_run {A B : Type} (m : M A) (k : A → M B) (env : Env) :
  (m ≫= k) env = match m env with
                 | (Some a, env') => k a env'
                 | (None, env') => (None, env')
                 end.
Proof. reflexivity. Qed.

Lemma ret_run {A : Type} (a : A) (env : Env) : (mret a : M A) env = (Some a, env).
Proof. reflexivity. Qed.

Section WorkflowFacts.
Variables MEA_KEY_ID MEA_VAL_ID : string.
Variable getMeaAggKey : string → option string → string.
Variable getFilterMeaAggKey : IFilterField → string.
Variable Date_getTime : option Literal → number.
Variable Number_ : option Literal → number.

Local Abbreviation createFilter_ := (createFilter getFilterMeaAggKey Date_getTime Number_).

(** [createFilter] returns for every filter that has a rule. *)
Lemma createFilter_returns (f : IFilterField) (rule : IFilterRule) (env : Env) :
  FilterField.rule f = Some rule →
  ∃ v env', createFilter_ f env = (Some v, env')
            ∧ VisFilter.fid v = getFilterMeaAggKey f.
Proof.
  intros Hrule. unfold createFilter.
  rewrite bind_run. cbn [viewKeys_add]. rewrite bind_run. unfold attempt. rewrite Hrule.
  repeat case_match; rewrite ?bind_run; cbn [console_error]; rewrite ?ret_run; eauto.
Qed.

Lemma mapM_createFilter_returns (l : list IFilterField) (env : Env) :
  Forall (fun f => is_Some (FilterField.rule f)) l →
  ∃ vs env', mapM createFilter_ l env = (Some vs, env') ∧ length vs = length l.
Proof.
  intros Hl. revert env. induction Hl as [|f l [rule Hrule] _ IH]; intros env.
  - exists [], env. done.
  - destruct (createFilter_returns f rule env Hrule) as (v & env1 & Hv & _).
    destruct (IH env1) as (vs & env2 & Hvs & Hlen).
    exists (v :: vs), env2. cbn [mapM]. rewrite bind_run, Hv, bind_run, Hvs, ret_run.
    split; [done | simpl; lia].
Qed.

Local Abbreviation viewDimensions_ := (viewDimensions MEA_KEY_ID MEA_VAL_ID).
Local Abbreviation viewMeasures_ := (viewMeasures MEA_KEY_ID MEA_VAL_ID).
Local Abbreviation toWorkflow_ :=
  (toWorkflow MEA_KEY_ID MEA_VAL_ID getMeaAggKey getFilterMeaAggKey Date_getTime Number_).

(** [toWorkflow] returns whenever [processExpression] returns on every
    computed field, and its result is the six slots, the empty ones
    dropped. *)
Lemma toWorkflow_returns viewFilters allFields viewDimensionsRaw viewMeasuresRaw
    defaultAggregated sort folds limit processed :
  processedFields allFields = Some processed →
  ∃ filters keys computedFilters aggFilters log,
    toWorkflow_ viewFilters allFields viewDimensionsRaw viewMeasuresRaw
      defaultAggregated sort folds limit
    = (Some (omap id
         (slots getMeaAggKey viewFilters
            (viewDimensions_ allFields viewDimensionsRaw viewMeasuresRaw folds)
            (viewMeasures_ allFields viewDimensionsRaw viewMeasuresRaw folds)
            defaultAggregated sort limit
            filters (treeShake processed keys) computedFilters aggFilters)), log).
Proof.
  intros Hprocessed. unfold toWorkflow, toWorkflow_body. cbv zeta.
  set (vd := viewDimensions_ _ _ _ _). set (vm := viewMeasures_ _ _ _ _).
  set (env0 := {| viewKeys := _; console := [] |}).
  set (l1 := filter (λ f, negb (FilterField.computed f) && _ && _) viewFilters).
  destruct (mapM_createFilter_returns l1 env0) as (filters & env1 & H1 & _).
  { apply Forall_forall. intros f [Hf _]%list_elem_of_filter.
    destruct (FilterField.rule f); [eauto | by rewrite !andb_false_r in Hf]. }
  rewrite bind_run, H1, bind_run. unfold attempt. rewrite Hprocessed.
  rewrite bind_run. cbn [viewKeys_get].
  set (l3 := filter (λ f, FilterField.computed f && _ && _) viewFilters).
  destruct (mapM_createFilter_returns l3 env1) as (computedFilters & env3 & H3 & _).
  { apply Forall_forall. intros f [Hf _]%list_elem_of_filter.
    destruct (FilterField.rule f); [eauto | by rewrite !andb_false_r in Hf]. }
  rewrite bind_run, H3.
  destruct (mapM_createFilter_returns (aggergatedFilter viewFilters) env3)
    as (aggFilters & env4 & H4 & _).
  { apply Forall_forall. intros f [Hf _]%list_elem_of_filter.
    destruct (FilterField.rule f); [eauto | by rewrite !andb_false_r in Hf]. }
  rewrite bind_run.
  exists filters, (viewKeys env1), computedFilters, aggFilters.
  unfold slots.
  destruct (aggergated viewFilters vd vm defaultAggregated && _ && _).
  - rewrite bind_run, H4. rewrite !ret_run. eauto.
  - rewrite !ret_run. eauto.
Qed.

(** It throws when [processExpression] throws on a computed field. *)
Lemma toWorkflow_throws viewFilters allFields viewDimensionsRaw viewMeasuresRaw
    defaultAggregated sort folds limit :
  processedFields allFields = None →
  ∃ log,
    toWorkflow_ viewFilters allFields viewDimensionsRaw viewMeasuresRaw
      defaultAggregated sort folds limit = (None, log).
Proof.
  intros Hprocessed. unfold toWorkflow, toWorkflow_body. cbv zeta.
  set (env0 := {| viewKeys := _; console := [] |}).
  set (l1 := filter (λ f, negb (FilterField.computed f) && _ && _) viewFilters).
  destruct (mapM_createFilter_returns l1 env0) as (filters & env1 & H1 & _).
  { apply Forall_forall. intros f [Hf _]%list_elem_of_filter.
    destruct (FilterField.rule f); [eauto | by rewrite !andb_false_r in Hf]. }
  rewrite bind_run, H1, bind_run. unfold attempt. rewrite Hprocessed. eauto.
Qed.
End WorkflowFacts.

(** ** The dependency pruner *)

(** The loop of [treeShake] never adds to [result]: the function returns
    the definitions whose identifier is used, in the order of the pool. *)
Lemma treeShake_direct (computedFields : list ITransform) (viewKeys : list string) :
  treeShake computedFields viewKeys
  = filter (fun f => Transform.key f ∈ viewKeys) computedFields.
Proof.
  unfold treeShake. destruct (treeShake_loop _ _) as [currentFields rest].
  apply list_filter_iff. intros f. by rewrite elem_of_list_to_set.
Qed.

(** What it returns is in the pool and is required. *)
Lemma treeShake_sound (pool : list ITransform) (used : list string) (f : ITransform) :
  f ∈ treeShake pool used → f ∈ pool ∧ required pool used f.
Proof.
  rewrite treeShake_direct. intros [Hused Hpool]%list_elem_of_filter.
  split; [done | by apply required_used].
Qed.

(** It returns every definition whose identifier is used. *)
Lemma treeShake_used (pool : list ITransform) (used : list string) (f : ITransform) :
  f ∈ pool → Transform.key f ∈ used → f ∈ treeShake pool used.
Proof. rewrite treeShake_direct. intros. by apply list_elem_of_filter. Qed.

(** C1: the pruner is to return every definition that is reachable from
    the used set through field references.  On the pool of [a], which
    refers to [b], and [b], with [a] used, it returns [a] alone: [b] is
    required and is not returned. *)
Theorem treeShake_drops_dependency :
  treeShake [dep_a; dep_b] ["a"] = [dep_a]
  ∧ required [dep_a; dep_b] ["a"] dep_b
  ∧ dep_b ∉ treeShake [dep_a; dep_b] ["a"].
Proof.
  assert (treeShake [dep_a; dep_b] ["a"] = [dep_a]) as Heq by (vm_compute; reflexivity).
  split; [done|]. split.
  - apply (required_dep _ _ dep_a).
    + apply required_used; [apply list_elem_of_here | apply list_elem_of_here].
    + apply list_elem_of_further, list_elem_of_here.
    + vm_compute. set_solver.
  - rewrite Heq. intros Hin%list_elem_of_singleton. discriminate.
Qed.

(** ** Paint compaction *)

Lemma fromEntries_lookup {V : Type} (g : N → V) (used : list N) (k : N) :
  fromEntries ((fun i => (i, g i)) <$> used) !! k
  = if decide (k ∈ used) then Some (g k) else None.
Proof.
  unfold fromEntries.
  enough (∀ acc : gmap N V,
    foldl (fun o e => <[e.1 := e.2]> o) acc ((fun i => (i, g i)) <$> used) !! k
    = if decide (k ∈ used) then Some (g k) else acc !! k) as H.
  { rewrite H. by rewrite lookup_empty. }
  induction used as [|i used IH]; intros acc.
  - destruct (decide (k ∈ [])) as [H|]; [by apply not_elem_of_nil in H | done].
  - rewrite fmap_cons. cbn [foldl fst snd]. rewrite IH. destruct (decide (k ∈ used)) as [Hin|Hnin].
    + rewrite decide_True; [done | by apply list_elem_of_further].
    + destruct (decide (i = k)) as [->|Hne].
      * rewrite lookup_insert_eq, decide_True; [done | apply list_elem_of_here].
      * rewrite lookup_insert_ne by done.
        rewrite decide_False; [done|]. intros [?|?]%elem_of_cons; congruence.
Qed.

Lemma compactDict_resolvable (value : Paint.IPaintMap) (used : list N) :
  Paint.usedColor value = Some used →
  (∀ i, i ∈ used → i = 255%N ∨ is_Some (Paint.dict value !! i)) →
  ∃ d, compactDict value = Some d
       ∧ ∀ k, d !! k = compacted_entry (Paint.dict value) used k.
Proof.
  intros Hused Hres. unfold compactDict. rewrite Hused. cbn [mbind option_bind].
  set (dict := <[255%N := Paint.mkEntry "" None]> (Paint.dict value)).
  set (g := fun i => Paint.mkEntry (Paint.name (default (Paint.mkEntry "" None) (dict !! i))) None).
  assert (mapM (fun i => e ← dict !! i; Some (i, Paint.mkEntry (Paint.name e) None)) used
          = Some ((fun i => (i, g i)) <$> used)) as ->.
  { apply mapM_Some_2, Forall2_fmap_r, Forall_Forall2_diag, Forall_forall.
    intros i Hi. unfold g, compose. cbn beta.
    assert (is_Some (dict !! i)) as [e ->]; [|done].
    unfold dict. destruct (decide (i = 255%N)) as [->|Hne].
    - rewrite lookup_insert_eq. eauto.
    - rewrite lookup_insert_ne by done. destruct (Hres i Hi); [done | assumption]. }
  eexists. split; [reflexivity|]. intros k.
  rewrite fromEntries_lookup. unfold compacted_entry, g, dict.
  destruct (decide (k ∈ used)) as [Hin|]; [|done].
  destruct (decide (k = 255%N)) as [->|Hne].
  - by rewrite lookup_insert_eq.
  - rewrite lookup_insert_ne by done.
    destruct (Hres k Hin) as [|[e ->]]; [done | reflexivity].
Qed.

Lemma processParam_compacted (x : IExpParameter) :
  (∀ value, x = PMap value → resolvable value) →
  ∃ x', processParam x = Some x' ∧ compacted x x'.
Proof.
  intros Hres. destruct x as [f|e|value|t v]; try (eexists; split; reflexivity).
  destruct (Hres value eq_refl) as (used & Hused & Hdict).
  destruct (compactDict_resolvable value used Hused Hdict) as (d & Hd & Hlookup).
  unfold processParam. rewrite Hd. eexists. split; [reflexivity|].
  exists {| Paint.x := Paint.x value; Paint.y := Paint.y value;
            Paint.domainX := Paint.domainX value; Paint.domainY := Paint.domainY value;
            Paint.map := Paint.map value; Paint.dict := d;
            Paint.usedColor := None; Paint.mapwidth := Paint.mapwidth value |}, used.
  by repeat split.
Qed.

(** C2, as amended: on an expression whose operator is ['paint'] and whose
    maps use only colours that are in their dictionary or the reserved
    colour 255, [processExpression] returns the expression with every map
    parameter rewritten: its dictionary has exactly the used colours as
    keys, each with the name it has in the dictionary of the input, and
    with the empty name for colour 255; the reserved entry is there only
    when 255 is a used colour.  The other parameters are unchanged. *)
Theorem processExpression_paint (exp : IExpression) :
  op exp = "paint" →
  (∀ value, PMap value ∈ params exp → resolvable value) →
  ∃ params',
    processExpression exp = Some (mkExpression "paint" params' (as_ exp))
    ∧ Forall2 compacted (params exp) params'.
Proof.
  intros Hop Hres. unfold processExpression. rewrite Hop. cbn [String.eqb].
  assert (∃ params', mapM processParam (params exp) = Some params'
                     ∧ Forall2 compacted (params exp) params') as (params' & -> & H).
  { induction (params exp) as [|x ps IH].
    - exists []. split; [done | constructor].
    - destruct (processParam_compacted x) as (x' & Hx & Hc).
      { intros value ->. apply Hres, list_elem_of_here. }
      destruct IH as (ps' & Hps & Hcs).
      { intros value Hin. by apply Hres, list_elem_of_further. }
      exists (x' :: ps'). split; [|by constructor].
      apply mapM_Some_2. constructor; [done | by apply mapM_Some_1]. }
  eexists. split; [reflexivity | done].
Qed.

(** The example of the specification: the rewritten dictionary is
    [{1: A, 2: B}]. *)
Lemma processExpression_paint_witness :
  ∃ params',
    processExpression paintExample = Some (mkExpression "paint" params' "painted")
    ∧ Forall2 compacted (params paintExample) params'.
Proof.
  apply (processExpression_paint paintExample); [reflexivity|].
  intros value Hin%list_elem_of_singleton. injection Hin as ->.
  exists [1%N; 2%N]. split; [reflexivity|].
  intros i Hi. right.
  apply elem_of_cons in Hi as [->|Hi]; [by eexists|].
  apply list_elem_of_singleton in Hi as ->. by eexists.
Defined.

(** C2, as stated, fails on its own example: the output dictionary is
    [{1: A, 2: B}], with no entry for the reserved colour 255. *)
Lemma paint_example_has_no_reserved_entry :
  ∃ value',
    processExpression paintExample = Some (mkExpression "paint" [PMap value'] "painted")
    ∧ Paint.dict value'
      = {[ 1%N := Paint.mkEntry "A" None; 2%N := Paint.mkEntry "B" None ]}
    ∧ Paint.dict value'
      ≠ {[ 1%N := Paint.mkEntry "A" None; 2%N := Paint.mkEntry "B" None;
           255%N := Paint.mkEntry "" None ]}.
Proof.
  eexists. split; [vm_compute; reflexivity|]. split.
  - vm_compute. reflexivity.
  - intros H. apply (f_equal (fun d => d !! 255%N)) in H. vm_compute in H. discriminate.
Qed.

(** ** The merge operations *)

(** C5: merging an empty list of transforms, or an empty list of filters,
    into a query payload returns the payload. *)
Theorem merge_empty_noop (w : IDataQueryPayload) :
  addTransformForQuery w [] = w ∧ addFilterForQuery w [] = w.
Proof. split; reflexivity. Qed.

Lemma findIndex_first {A : Type} (test : A → bool) (before : list A) (a : A) (after : list A) :
  Forall (fun b => test b = false) before → test a = true →
  findIndex test (before ++ a :: after) = Z.of_nat (length before).
Proof.
  intros Hbefore Ha. induction Hbefore as [|b before Hb _ IH]; simpl.
  - by rewrite Ha.
  - rewrite Hb, IH. destruct (Z.ltb_spec (Z.of_nat (length before)) 0); lia.
Qed.

Lemma findIndex_none {A : Type} (test : A → bool) (l : list A) :
  Forall (fun b => test b = false) l → findIndex test l = (-1)%Z.
Proof.
  intros Hl. induction Hl as [|b l Hb _ IH]; simpl; [done|]. by rewrite Hb, IH.
Qed.

Lemma imap_fixed {A : Type} (h : nat → A → A) (l : list A) :
  (∀ i a, h i a = a) → imap h l = l.
Proof.
  intros Hh. revert h Hh. induction l as [|a l IH]; intros h Hh; [done|].
  rewrite imap_cons, Hh, IH; [done|]. intros i b. apply Hh.
Qed.

Lemma imap_at {A : Type} (h : nat → A → A) (before : list A) (a : A) (after : list A) :
  (∀ i b, i ≠ length before → h i b = b) →
  imap h (before ++ a :: after) = before ++ h (length before) a :: after.
Proof.
  revert h. induction before as [|b before IH]; intros h Hh.
  - cbn [app length]. rewrite imap_cons, imap_fixed; [done|].
    intros i c. by apply Hh.
  - cbn [app length]. rewrite imap_cons, Hh by done. rewrite IH; [done|].
    intros i c Hi. apply Hh. cbn [length]. lia.
Qed.

(** C6: with a list of new transforms that is not empty,
    [addTransformForQuery] appends to the first transform step of the
    workflow the new entries whose key the step does not have, in their
    order, so that the entries of a key of the step are the ones it had;
    when the workflow has no transform step, the new list becomes a
    transform step ahead of all the steps. *)
Theorem addTransformForQuery_merge (query : IDataQueryPayload) (transform : list ITransform) :
  transform ≠ [] →
  (∀ before x after,
     Payload.workflow query = before ++ TransformStep x :: after →
     Forall (fun step => step_type step ≠ transform_) before →
     let merged := x ++ filter (fun t => Transform.key t ∉ Transform.key <$> x) transform in
     addTransformForQuery query transform
     = {| Payload.workflow := before ++ TransformStep merged :: after;
          Payload.limit := Payload.limit query |}
     ∧ ∀ k, k ∈ Transform.key <$> x →
            filter (fun t => Transform.key t = k) merged
            = filter (fun t => Transform.key t = k) x)
  ∧ (Forall (fun step => step_type step ≠ transform_) (Payload.workflow query) →
     addTransformForQuery query transform
     = {| Payload.workflow := TransformStep transform :: Payload.workflow query;
          Payload.limit := Payload.limit query |}).
Proof.
  intros Hne.
  assert (Nat.eqb (length transform) 0 = false) as Hlen.
  { destruct transform; [done | reflexivity]. }
  split.
  - intros before x after Hw Hbefore merged. split.
    + unfold addTransformForQuery. rewrite Hlen, Hw.
      rewrite findIndex_first; [| |reflexivity].
      2:{ eapply Forall_impl; [exact Hbefore|]. intros step Hs. unfold is_transform.
          by apply bool_decide_eq_false. }
      destruct (Z.ltb_spec (-1) (Z.of_nat (length before))) as [_|]; [|lia].
      f_equal. rewrite imap_at.
      * rewrite Z.eqb_refl. unfold merged.
        erewrite (list_filter_iff _ (fun t => Transform.key t ∉ Transform.key <$> x));
          [done|].
        intros t. by rewrite elem_of_list_to_set.
      * intros i step Hi. destruct step; try done.
        destruct (Z.eqb_spec (Z.of_nat i) (Z.of_nat (length before))); [lia | done].
    + intros k Hk. unfold merged. rewrite filter_app.
      rewrite <- (app_nil_r (filter _ x)) at 2. f_equal.
      rewrite list_filter_filter. apply elem_of_nil_inv. intros t.
      intros [[-> Hnin] _]%list_elem_of_filter. done.
  - intros Hnone. unfold addTransformForQuery. rewrite Hlen.
    rewrite findIndex_none; [done|].
    eapply Forall_impl; [exact Hnone|]. intros step Hs. unfold is_transform.
    by apply bool_decide_eq_false.
Qed.

(** A workflow with a transform step of key [x]: merging entries for [x]
    and [y] keeps the entry of [x] and appends that of [y]. *)
Lemma addTransformForQuery_merge_witness :
  addTransformForQuery merge_query [merge_x'; merge_y]
  = {| Payload.workflow := [TransformStep [merge_x; merge_y]; ViewStep [Raw ["x"; "y"]]];
       Payload.limit := None |}
  ∧ filter (fun t => Transform.key t = "x") [merge_x; merge_y] = [merge_x].
Proof.
  destruct (addTransformForQuery_merge merge_query [merge_x'; merge_y]) as [Hmerge _];
    [done|].
  destruct (Hmerge [] [merge_x] [ViewStep [Raw ["x"; "y"]]] eq_refl (Forall_nil_2 _))
    as [Heq Hkeep].
  split; [exact Heq|]. apply (Hkeep "x"). apply list_elem_of_here.
Defined.

(** ** Containers *)

Lemma JSMap_set_values {T : Type} (m : list (string * T)) (k : string) (v x : T) :
  x ∈ JSMap.values (JSMap.set m k v) → x = v ∨ x ∈ JSMap.values m.
Proof.
  unfold JSMap.values. induction m as [|[k' v'] m IH]; simpl.
  - intros ->%list_elem_of_singleton. by left.
  - case_decide; simpl; intros [->|Hin]%elem_of_cons.
    + by left.
    + right. by apply list_elem_of_further.
    + right. apply list_elem_of_here.
    + destruct (IH Hin) as [->|?]; [by left | right; by apply list_elem_of_further].
Qed.

(** [deduper] returns items of its input. *)
Lemma deduper_subset {T : Type} (items : list T) (keyF : T → string) (x : T) :
  x ∈ deduper items keyF → x ∈ items.
Proof.
  unfold deduper.
  enough (∀ m, x ∈ JSMap.values (foldl (fun map x => JSMap.set map (keyF x) x) m items) →
               x ∈ JSMap.values m ∨ x ∈ items) as H.
  { intros Hx. destruct (H [] Hx) as [Hnil|]; [|done]. by apply elem_of_nil in Hnil. }
  induction items as [|a items IH]; intros m; simpl; [by left|].
  intros [Hin|Hin]%IH.
  - apply JSMap_set_values in Hin as [->|?]; [right; apply list_elem_of_here | by left].
  - right. by apply list_elem_of_further.
Qed.

(** [new Set(items)] holds items of its input. *)
Lemma JSSet_of_list_subset {A K : Type} `{EqDecision K} (ident : A → K)
    (items : list A) (x : A) :
  x ∈ JSSet.of_list ident items → x ∈ items.
Proof.
  unfold JSSet.of_list.
  enough (∀ s, x ∈ foldl (JSSet.add ident) s items → x ∈ s ∨ x ∈ items) as H.
  { intros Hx. destruct (H [] Hx) as [Hnil|]; [|done]. by apply elem_of_nil in Hnil. }
  induction items as [|a items IH]; intros s; simpl; [by left|].
  intros [Hin|Hin]%IH.
  - unfold JSSet.add in Hin. destruct (JSSet.has ident s a); [by left|].
    apply elem_of_app in Hin as [?| ->%list_elem_of_singleton]; [by left|].
    right. apply list_elem_of_here.
  - right. by apply list_elem_of_further.
Qed.

(** ** Fold expansion *)

Section FoldFacts.
Variables MEA_KEY_ID MEA_VAL_ID : string.

Local Abbreviation viewDimensions_ := (viewDimensions MEA_KEY_ID MEA_VAL_ID).
Local Abbreviation viewMeasures_ := (viewMeasures MEA_KEY_ID MEA_VAL_ID).
Local Abbreviation hasFold_ := (hasFold MEA_KEY_ID MEA_VAL_ID).
Local Abbreviation foldAggName_ := (foldAggName MEA_VAL_ID).

(** The clones of a role: one for every position of the fold list whose
    identifier is that of a known field of the role. *)
Lemma elem_of_clones (role : AnalyticType) (allFields : list IViewField)
    (folds : list string) (aggName : option string) (o : Obj.t) :
  o ∈ omap id (filter (fun x => has_role role x) (newFields allFields folds aggName))
  ↔ ∃ i k x, folds !! i = Some k
             ∧ find (fun x => String.eqb (Field.fid x) k) allFields = Some x
             ∧ Field.analyticType x = role
             ∧ o = Obj.mk (Obj.Cloned i) (Field.with_aggName x aggName).
Proof.
  unfold newFields. rewrite list_elem_of_omap. split.
  - intros (y & [Hrole [_ Hy]%list_elem_of_filter]%list_elem_of_filter & Hid).
    cbn in Hid. subst y.
    apply list_elem_of_lookup in Hy as [i Hi].
    rewrite list_lookup_imap, list_lookup_fmap in Hi.
    destruct (folds !! i) as [k|] eqn:Hk; [|done]. cbn in Hi.
    destruct (find _ allFields) as [x|] eqn:Hx; [|done]. cbn in Hi.
    injection Hi as <-. exists i, k, x. repeat split; try done.
    cbn in Hrole. by apply bool_decide_unpack in Hrole.
  - intros (i & k & x & Hk & Hx & Hrole & ->). eexists. split; [|reflexivity].
    apply list_elem_of_filter. split.
    { cbn. by apply bool_decide_pack. }
    apply list_elem_of_filter. split; [done|].
    apply list_elem_of_lookup. exists i.
    rewrite list_lookup_imap, list_lookup_fmap, Hk. cbn. by rewrite Hx.
Qed.

Lemma find_fid (allFields : list IViewField) (k : string) (x : IViewField) :
  find (fun x => String.eqb (Field.fid x) k) allFields = Some x →
  x ∈ allFields ∧ Field.fid x = k.
Proof.
  intros [Hin Heq]%find_some. split; [by apply list_elem_of_In|].
  by apply String.eqb_eq.
Qed.

(** The identifier of a clone is in the fold list. *)
Lemma clone_fid (role : AnalyticType) (allFields : list IViewField)
    (folds : list string) (aggName : option string) (o : Obj.t) :
  o ∈ omap id (filter (fun x => has_role role x) (newFields allFields folds aggName)) →
  Obj.fid o ∈ folds.
Proof.
  intros (i & k & x & Hk & [_ Hfid]%find_fid & _ & ->)%elem_of_clones.
  cbn. rewrite Hfid. apply list_elem_of_lookup. eauto.
Qed.

Lemma hasFold_true (viewDimensionsRaw viewMeasuresRaw : list Obj.t) :
  hasFold_ viewDimensionsRaw viewMeasuresRaw = true
  ↔ (∃ x, x ∈ viewDimensionsRaw ∧ Obj.fid x = MEA_KEY_ID)
    ∧ (∃ x, x ∈ viewMeasuresRaw ∧ Obj.fid x = MEA_VAL_ID).
Proof.
  assert (∀ (l : list Obj.t) (k : string),
    is_some (find (fun x => String.eqb (Obj.fid x) k) l) = true
    ↔ ∃ x, x ∈ l ∧ Obj.fid x = k) as Hfind.
  { intros l k. split.
    - destruct (find _ l) as [x|] eqn:Hx; [|done]. intros _.
      apply find_some in Hx as [Hin Heq]. exists x. split.
      + by apply list_elem_of_In.
      + by apply String.eqb_eq.
    - intros (x & Hin & Heq). destruct (find _ l) as [y|] eqn:Hy; [done|].
      apply list_elem_of_In in Hin.
      pose proof (find_none _ _ Hy x Hin) as Hx. cbn in Hx.
      apply String.eqb_neq in Hx. done. }
  unfold hasFold. rewrite andb_true_iff, !Hfind. done.
Qed.

(** The dimensions of the view: those of the input but the reserved
    one, and with a fold the clones of the dimensions. *)
Lemma elem_of_viewDimensions allFields viewDimensionsRaw viewMeasuresRaw folds (o : Obj.t) :
  o ∈ viewDimensions_ allFields viewDimensionsRaw viewMeasuresRaw folds
  ↔ (o ∈ viewDimensionsRaw ∧ Obj.fid o ≠ MEA_KEY_ID)
    ∨ (hasFold_ viewDimensionsRaw viewMeasuresRaw = true
       ∧ o ∈ omap id (filter (fun x => has_role dimension x)
                        (newFields allFields folds (foldAggName_ viewMeasuresRaw)))).
Proof.
  unfold viewDimensions. destruct (hasFold_ _ _).
  - rewrite elem_of_app, list_elem_of_filter. intuition.
  - rewrite list_elem_of_filter. intuition discriminate.
Qed.

Lemma elem_of_viewMeasures allFields viewDimensionsRaw viewMeasuresRaw folds (o : Obj.t) :
  o ∈ viewMeasures_ allFields viewDimensionsRaw viewMeasuresRaw folds
  ↔ (o ∈ viewMeasuresRaw ∧ Obj.fid o ≠ MEA_VAL_ID)
    ∨ (hasFold_ viewDimensionsRaw viewMeasuresRaw = true
       ∧ o ∈ omap id (filter (fun x => has_role measure x)
                        (newFields allFields folds (foldAggName_ viewMeasuresRaw)))).
Proof.
  unfold viewMeasures. destruct (hasFold_ _ _).
  - rewrite elem_of_app, list_elem_of_filter. intuition.
  - rewrite list_elem_of_filter. intuition discriminate.
Qed.
End FoldFacts.

(** ** The assembler *)

(** The kinds of the steps that are left of typed slots follow the order
    of the slots. *)
Lemma typed_slots_sublist (slots : list (option IDataQueryWorkflowStep))
    (types : list StepType) :
  Forall2 (fun slot type => ∀ step, slot = Some step → step_type step = type) slots types →
  step_type <$> omap id slots `sublist_of` types.
Proof.
  induction 1 as [|slot type slots types Hslot _ IH]; [constructor|].
  destruct slot as [step|]; cbn.
  - rewrite (Hslot step eq_refl). by apply sublist_skip.
  - by apply sublist_cons.
Qed.

Lemma step_if_nonempty_type {A : Type} (mk : list A → IDataQueryWorkflowStep)
    (type : StepType) (l : list A) (step : IDataQueryWorkflowStep) :
  (∀ l, step_type (mk l) = type) →
  step_if_nonempty mk l = Some step → step_type step = type.
Proof.
  intros Hmk. unfold step_if_nonempty. case_match; [|done]. by intros [= <-].
Qed.

(** The clones that the code makes are those of the specification. *)
Lemma clones_spec (role : AnalyticType) (allFields : list IViewField)
    (folds : list string) (aggName : option string) :
  omap id (filter (fun x => has_role role x) (newFields allFields folds aggName))
  = spec_fold_clones 0 role aggName allFields folds.
Proof.
  unfold newFields.
  enough (∀ n,
    omap id (filter (fun x => has_role role x)
               (filter (fun _ => True)
                  (imap (fun i x => (fun x => Obj.mk (Obj.Cloned (n + i))
                                                (Field.with_aggName x aggName)) <$> x)
                     ((fun k => find (fun x => String.eqb (Field.fid x) k) allFields)
                        <$> folds))))
    = spec_fold_clones n role aggName allFields folds) as H by exact (H 0).
  induction folds as [|k folds IH]; intros n; [done|].
  rewrite fmap_cons, imap_cons, filter_cons, decide_True by done.
  rewrite filter_cons. cbn [spec_fold_clones].
  rewrite <- (IH (S n)).
  assert (imap ((fun i x => (fun x => Obj.mk (Obj.Cloned (n + i))
                                        (Field.with_aggName x aggName)) <$> x) ∘ S)
            ((fun k => find (fun x => String.eqb (Field.fid x) k) allFields) <$> folds)
          = imap (fun i x => (fun x => Obj.mk (Obj.Cloned (S n + i))
                                         (Field.with_aggName x aggName)) <$> x)
              ((fun k => find (fun x => String.eqb (Field.fid x) k) allFields) <$> folds))
    as ->.
  { apply imap_ext. intros i x _. cbn. by rewrite Nat.add_succ_r. }
  rewrite Nat.add_0_r.
  destruct (find (fun x => String.eqb (Field.fid x) k) allFields) as [x|];
    cbn [fmap option_fmap option_map].
  - destruct (decide (has_role role (Some (Obj.mk (Obj.Cloned n)
                                              (Field.with_aggName x aggName)))))
      as [H|H]; cbn in H.
    + apply bool_decide_unpack in H. rewrite decide_True by done. reflexivity.
    + rewrite decide_False; [reflexivity|]. intros Hrole. apply H.
      by apply bool_decide_pack.
  - destruct (decide (has_role role None)) as [H|H]; [done | reflexivity].
Qed.

Section RoleFacts.
Variables MEA_KEY_ID MEA_VAL_ID : string.
Variable getMeaAggKey : string → option string → string.
Variable getFilterMeaAggKey : IFilterField → string.
Variable Date_getTime : option Literal → number.
Variable Number_ : option Literal → number.

Local Abbreviation createFilter_ := (createFilter getFilterMeaAggKey Date_getTime Number_).
Local Abbreviation viewDimensions_ := (viewDimensions MEA_KEY_ID MEA_VAL_ID).
Local Abbreviation viewMeasures_ := (viewMeasures MEA_KEY_ID MEA_VAL_ID).
Local Abbreviation toWorkflow_ :=
  (toWorkflow MEA_KEY_ID MEA_VAL_ID getMeaAggKey getFilterMeaAggKey Date_getTime Number_).
Local Abbreviation normalised_ := (normalised getFilterMeaAggKey).

Lemma createFilter_normalised (f : IFilterField) (rule : IFilterRule) (env : Env) :
  FilterField.rule f = Some rule →
  ∃ v env', createFilter_ f env = (Some v, env') ∧ normalised_ f v.
Proof.
  intros Hrule. unfold createFilter, normalised.
  rewrite bind_run. cbn [viewKeys_add]. rewrite bind_run. unfold attempt. rewrite Hrule.
  destruct (String.eqb_spec (Rule.type rule) "one of") as [H1|H1].
  { rewrite ret_run. eexists _, _. split; [reflexivity|]. cbn. eauto. }
  destruct (String.eqb_spec (Rule.type rule) "temporal range") as [H2|H2].
  { rewrite ret_run. eexists _, _. split; [reflexivity|]. cbn. eauto. }
  destruct (String.eqb_spec (Rule.type rule) "not in") as [H3|H3].
  { rewrite ret_run. eexists _, _. split; [reflexivity|]. cbn. eauto. }
  destruct (String.eqb_spec (Rule.type rule) "range") as [H4|H4].
  { rewrite ret_run. eexists _, _. split; [reflexivity|]. cbn. eauto. }
  rewrite bind_run. cbn [console_error]. rewrite ret_run.
  eexists _, _. split; [reflexivity|]. cbn. eauto.
Qed.

Lemma mapM_createFilter_normalised (l : list IFilterField) (env : Env) :
  Forall (fun f => is_Some (FilterField.rule f)) l →
  ∃ vs env', mapM createFilter_ l env = (Some vs, env') ∧ Forall2 normalised_ l vs.
Proof.
  intros Hl. revert env. induction Hl as [|f l [rule Hrule] _ IH]; intros env.
  - exists [], env. split; [done | constructor].
  - destruct (createFilter_normalised f rule env Hrule) as (v & env1 & Hv & Hn).
    destruct (IH env1) as (vs & env2 & Hvs & Hns).
    exists (v :: vs), env2. cbn [mapM]. rewrite bind_run, Hv, bind_run, Hvs, ret_run.
    split; [done | by constructor].
Qed.

(** The slots of [toWorkflow] and the filters that fill them: those of
    the first slot are the normal forms of the filters before the
    transform, those of the third of the filters after it, and those of the
    fifth of the filters that are scoped to the aggregation. *)
Lemma toWorkflow_roles viewFilters allFields viewDimensionsRaw viewMeasuresRaw
    defaultAggregated sort folds limit processed :
  processedFields allFields = Some processed →
  ∃ filters keys computedFilters aggFilters log,
    toWorkflow_ viewFilters allFields viewDimensionsRaw viewMeasuresRaw
      defaultAggregated sort folds limit
    = (Some (omap id
         (slots getMeaAggKey viewFilters
            (viewDimensions_ allFields viewDimensionsRaw viewMeasuresRaw folds)
            (viewMeasures_ allFields viewDimensionsRaw viewMeasuresRaw folds)
            defaultAggregated sort limit
            filters (treeShake processed keys) computedFilters aggFilters)), log)
    ∧ Forall2 normalised_ (detailFilters viewFilters) filters
    ∧ Forall2 normalised_ (transformedFilters viewFilters) computedFilters
    ∧ Forall2 normalised_ (aggergatedFilter viewFilters) aggFilters.
Proof.
  intros Hprocessed. unfold toWorkflow, toWorkflow_body. cbv zeta.
  fold (detailFilters viewFilters) (transformedFilters viewFilters).
  set (vd := viewDimensions_ _ _ _ _). set (vm := viewMeasures_ _ _ _ _).
  set (env0 := {| viewKeys := _; console := [] |}).
  assert (∀ P : IFilterField → bool,
    (∀ f, P f = true → is_some (FilterField.rule f) = true) →
    Forall (fun f => is_Some (FilterField.rule f)) (filter (fun f => P f) viewFilters))
    as Hrules.
  { intros P HP. apply Forall_forall. intros f [Hf%Is_true_true%HP _]%list_elem_of_filter.
    by destruct (FilterField.rule f). }
  destruct (mapM_createFilter_normalised (detailFilters viewFilters) env0)
    as (filters & env1 & H1 & Hn1).
  { apply Hrules. intros f Hf. by destruct (is_some (FilterField.rule f));
      [|rewrite andb_false_r in Hf]. }
  rewrite bind_run, H1, bind_run. unfold attempt. rewrite Hprocessed.
  rewrite bind_run. cbn [viewKeys_get].
  destruct (mapM_createFilter_normalised (transformedFilters viewFilters) env1)
    as (computedFilters & env3 & H3 & Hn3).
  { apply Hrules. intros f Hf. by destruct (is_some (FilterField.rule f));
      [|rewrite andb_false_r in Hf]. }
  rewrite bind_run, H3.
  destruct (mapM_createFilter_normalised (aggergatedFilter viewFilters) env3)
    as (aggFilters & env4 & H4 & Hn4).
  { apply Hrules. intros f Hf. by destruct (is_some (FilterField.rule f));
      [|rewrite andb_false_r in Hf]. }
  rewrite bind_run. exists filters, (viewKeys env1), computedFilters, aggFilters.
  unfold slots.
  destruct (aggergated viewFilters vd vm defaultAggregated && _ && _).
  - rewrite bind_run, H4. rewrite !ret_run. eauto 6.
  - rewrite !ret_run. eauto 6.
Qed.
End RoleFacts.

Section Claims.
Variables MEA_KEY_ID MEA_VAL_ID : string.
Variable getMeaAggKey : string → option string → string.
Variable getFilterMeaAggKey : IFilterField → string.
Variable Date_getTime : option Literal → number.
Variable Number_ : option Literal → number.

Local Abbreviation createFilter_ := (createFilter getFilterMeaAggKey Date_getTime Number_).
Local Abbreviation viewDimensions_ := (viewDimensions MEA_KEY_ID MEA_VAL_ID).
Local Abbreviation viewMeasures_ := (viewMeasures MEA_KEY_ID MEA_VAL_ID).
Local Abbreviation hasFold_ := (hasFold MEA_KEY_ID MEA_VAL_ID).
Local Abbreviation toWorkflow_ :=
  (toWorkflow MEA_KEY_ID MEA_VAL_ID getMeaAggKey getFilterMeaAggKey Date_getTime Number_).
Local Abbreviation slots_ := (slots getMeaAggKey).
Local Abbreviation viewQuery_ := (viewQuery getMeaAggKey).

Lemma slots_typed viewFilters vd vm defaultAggregated sort limit
    filters computedFields computedFilters aggFilters :
  Forall2 (fun slot type => ∀ step, slot = Some step → step_type step = type)
    (slots_ viewFilters vd vm defaultAggregated sort limit
       filters computedFields computedFilters aggFilters)
    slot_types.
Proof.
  unfold slots, slot_types. repeat constructor.
  - intros step. by apply step_if_nonempty_type.
  - intros step. by apply step_if_nonempty_type.
  - intros step. by apply step_if_nonempty_type.
  - by intros step [= <-].
  - intros step. case_match; [|done]. by intros [= <-].
  - intros step. case_match; [|done]. by intros [= <-].
Qed.

Lemma slots_view_steps viewFilters vd vm defaultAggregated sort limit
    filters computedFields computedFilters aggFilters :
  view_steps (omap id (slots_ viewFilters vd vm defaultAggregated sort limit
                         filters computedFields computedFilters aggFilters))
  = [ViewStep [viewQuery_ viewFilters vd vm defaultAggregated]].
Proof.
  unfold slots, step_if_nonempty, view_steps.
  repeat case_match; reflexivity.
Qed.

Lemma slots_sort_steps viewFilters vd vm defaultAggregated sort limit
    filters computedFields computedFilters aggFilters :
  sort_steps (omap id (slots_ viewFilters vd vm defaultAggregated sort limit
                         filters computedFields computedFilters aggFilters))
  = if sorted sort limit then
      [SortStep ((fun f => if aggergated viewFilters vd vm defaultAggregated
                           then getMeaAggKey (Obj.fid f) (Obj.aggName f)
                           else Obj.fid f) <$> vm) sort]
    else [].
Proof.
  unfold slots, step_if_nonempty, sort_steps.
  repeat case_match; reflexivity.
Qed.

(** The test of the code for the aggregation is the condition
    [aggregation_triggers]. *)
Lemma aggergated_true viewFilters vd vm defaultAggregated :
  aggergated viewFilters vd vm defaultAggregated = true
  ↔ aggregation_triggers defaultAggregated viewFilters vd vm.
Proof.
  unfold aggergated, aggregation_triggers, aggregateOn.
  rewrite andb_true_iff, orb_true_iff, andb_true_iff, negb_true_iff.
  rewrite Nat.eqb_neq, Nat.eqb_eq, Nat.ltb_lt, length_app, !length_fmap.
  assert (∀ {A} (P : A → bool) (l : list A),
    length (filter (fun a => P a) l) ≠ 0 ↔ ∃ a, a ∈ l ∧ P a = true) as Hfilter.
  { intros A P l. split.
    - destruct (filter _ l) as [|a l'] eqn:Hl; [done|]. intros _.
      assert (a ∈ filter (fun a => P a) l) as [Ha Hin]%list_elem_of_filter.
      { rewrite Hl. apply list_elem_of_here. }
      exists a. split; [done | by apply Is_true_true].
    - intros (a & Hin & Ha) Hlen. apply length_zero_iff_nil in Hlen.
      assert (a ∈ filter (fun a => P a) l) as Hnil.
      { apply list_elem_of_filter. split; [by apply Is_true_true | done]. }
      rewrite Hlen in Hnil. by apply elem_of_nil in Hnil. }
  assert (length vm = 0 ∧ 0 < length vd ↔ vm = [] ∧ vd ≠ []) as Hlists.
  { rewrite length_zero_iff_nil. destruct vd; cbn; intuition (try done; lia). }
  rewrite <- Hlists.
  assert (length (filter (fun f => string_truthy (Obj.aggName f)) vm)
          + length (aggergatedFilter viewFilters) ≠ 0
          ↔ (∃ f, f ∈ vm ∧ string_truthy (Obj.aggName f) = true)
            ∨ (∃ f, f ∈ viewFilters ∧ FilterField.enableAgg f = true
                    ∧ string_truthy (FilterField.aggName f) = true
                    ∧ is_Some (FilterField.rule f))) as Hon.
  { rewrite <- (Hfilter _ (fun f => string_truthy (Obj.aggName f)) vm).
    assert (length (aggergatedFilter viewFilters) ≠ 0
            ↔ ∃ f, f ∈ viewFilters ∧ FilterField.enableAgg f = true
                   ∧ string_truthy (FilterField.aggName f) = true
                   ∧ is_Some (FilterField.rule f)) as <-.
    { unfold aggergatedFilter. rewrite Hfilter. apply exist_proper. intros f.
      rewrite !andb_true_iff. destruct (FilterField.rule f); cbn.
      - intuition eauto.
      - split; [intuition discriminate | intros (_ & _ & _ & [? ?]); discriminate]. }
    lia. }
  rewrite Hon. tauto.
Qed.

(** C3, as amended: when [toWorkflow] returns, its workflow has one view
    step, which aggregates if and only if the default aggregation is on
    and a measure of the view has an aggregation function, or a filter
    scoped to the aggregation has an aggregation function and a rule, or
    the view has dimensions and no measure (the lists being those after
    the fold expansion); else the view is raw. *)
Theorem toWorkflow_view_kind viewFilters allFields viewDimensionsRaw viewMeasuresRaw
    defaultAggregated sort folds limit processed :
  processedFields allFields = Some processed →
  let vd := viewDimensions_ allFields viewDimensionsRaw viewMeasuresRaw folds in
  let vm := viewMeasures_ allFields viewDimensionsRaw viewMeasuresRaw folds in
  ∃ steps log query,
    toWorkflow_ viewFilters allFields viewDimensionsRaw viewMeasuresRaw
      defaultAggregated sort folds limit = (Some steps, log)
    ∧ view_steps steps = [ViewStep [query]]
    ∧ (aggregation_triggers defaultAggregated viewFilters vd vm →
       ∃ groupBy measures, query = Aggregate groupBy measures)
    ∧ (¬ aggregation_triggers defaultAggregated viewFilters vd vm →
       ∃ fields, query = Raw fields).
Proof.
  intros Hprocessed vd vm.
  destruct (toWorkflow_returns MEA_KEY_ID MEA_VAL_ID getMeaAggKey getFilterMeaAggKey
              Date_getTime Number_ viewFilters allFields viewDimensionsRaw
              viewMeasuresRaw defaultAggregated sort folds limit processed Hprocessed)
    as (filters & keys & computedFilters & aggFilters & log & Hrun).
  eexists _, log, _. split; [exact Hrun|]. split; [apply slots_view_steps|].
  fold vd vm. unfold viewQuery. rewrite <- aggergated_true.
  destruct (aggergated viewFilters vd vm defaultAggregated); split; intros H; try done;
    eauto.
Qed.

(** The test of the code for the sort step is the condition [limited]
    on a sort direction other than ['none']. *)
Lemma sorted_true (sort : SortDirection) (limit : option number) :
  sorted sort limit = true ↔ sort ≠ none ∧ limited limit.
Proof.
  unfold sorted, limited. rewrite andb_true_iff, bool_decide_eq_true.
  apply and_iff_compat_l. destruct limit as [n|].
  - rewrite andb_true_iff, bool_decide_eq_true. split.
    + intros [Htruthy Hne]. exists n. repeat split; try done.
      * intros ->. discriminate.
      * intros ->. discriminate.
    + intros (n' & [= <-] & H0 & Hnan & Hne). split; [|done].
      destruct n as [z| | |]; try done. cbn.
      destruct (Z.eqb_spec z 0) as [->|]; done.
  - split; [done | intros (n & Hn & _); discriminate].
Qed.

(** C4, as amended: when [toWorkflow] returns, its workflow has a sort
    step if and only if the sort direction is not ['none'] and the limit
    is given and is none of [0], [NaN] and [-1]. *)
Theorem toWorkflow_sort_step viewFilters allFields viewDimensionsRaw viewMeasuresRaw
    defaultAggregated sort folds limit processed :
  processedFields allFields = Some processed →
  ∃ steps log,
    toWorkflow_ viewFilters allFields viewDimensionsRaw viewMeasuresRaw
      defaultAggregated sort folds limit = (Some steps, log)
    ∧ ((∃ step, step ∈ steps ∧ step_type step = sort_)
       ↔ sort ≠ none ∧ limited limit).
Proof.
  intros Hprocessed.
  destruct (toWorkflow_returns MEA_KEY_ID MEA_VAL_ID getMeaAggKey getFilterMeaAggKey
              Date_getTime Number_ viewFilters allFields viewDimensionsRaw
              viewMeasuresRaw defaultAggregated sort folds limit processed Hprocessed)
    as (filters & keys & computedFilters & aggFilters & log & Hrun).
  eexists _, log. split; [exact Hrun|].
  rewrite <- sorted_true.
  set (steps := omap id _).
  assert ((∃ step, step ∈ steps ∧ step_type step = sort_) ↔ sort_steps steps ≠ []) as ->.
  { unfold sort_steps. split.
    - intros (step & Hin & Htype) Hnil.
      assert (step ∈ filter (fun step => step_type step = sort_) steps) as Hs
        by (by apply list_elem_of_filter).
      rewrite Hnil in Hs. by apply elem_of_nil in Hs.
    - destruct (filter _ steps) as [|step l] eqn:Hl; [done|]. intros _.
      assert (step ∈ filter (fun step => step_type step = sort_) steps)
        as [Htype Hin]%list_elem_of_filter by (rewrite Hl; apply list_elem_of_here).
      eauto. }
  unfold steps. rewrite slots_sort_steps. by destruct (sorted sort limit).
Qed.

(** C7: when [toWorkflow] returns, its steps are what is left of six
    slots when the empty ones are dropped, in this order: the filter step
    of the filters that go before the transform, the transform step of
    computed fields, the filter step of the computed filters, the view
    step, the filter step of the filters that are scoped to the
    aggregation, and the sort step.  The kinds of the steps follow that
    order. *)
Theorem toWorkflow_step_order viewFilters allFields viewDimensionsRaw viewMeasuresRaw
    defaultAggregated sort folds limit processed :
  processedFields allFields = Some processed →
  let vd := viewDimensions_ allFields viewDimensionsRaw viewMeasuresRaw folds in
  let vm := viewMeasures_ allFields viewDimensionsRaw viewMeasuresRaw folds in
  ∃ steps log filters transform computedFilters query aggFilters by_ aggSlot sortSlot,
    toWorkflow_ viewFilters allFields viewDimensionsRaw viewMeasuresRaw
      defaultAggregated sort folds limit = (Some steps, log)
    ∧ steps
      = omap id
          [ (if filters is [] then None else Some (FilterStep filters));
            (if transform is [] then None else Some (TransformStep transform));
            (if computedFilters is [] then None else Some (FilterStep computedFilters));
            Some (ViewStep [query]);
            aggSlot;
            sortSlot ]
    ∧ Forall2 (normalised getFilterMeaAggKey) (detailFilters viewFilters) filters
    ∧ transform `sublist_of` processed
    ∧ Forall2 (normalised getFilterMeaAggKey) (transformedFilters viewFilters)
        computedFilters
    ∧ Forall2 (normalised getFilterMeaAggKey) (aggergatedFilter viewFilters) aggFilters
    ∧ ((aggSlot = Some (FilterStep aggFilters)
        ∧ aggregation_triggers defaultAggregated viewFilters vd vm
        ∧ vd ≠ [] ∧ aggFilters ≠ [])
       ∨ (aggSlot = None
          ∧ ¬ (aggregation_triggers defaultAggregated viewFilters vd vm
               ∧ vd ≠ [] ∧ aggFilters ≠ [])))
    ∧ ((sortSlot = Some (SortStep by_ sort) ∧ sort ≠ none ∧ limited limit)
       ∨ (sortSlot = None ∧ ¬ (sort ≠ none ∧ limited limit)))
    ∧ step_type <$> steps `sublist_of` slot_types.
Proof.
  intros Hprocessed vd vm.
  destruct (toWorkflow_roles MEA_KEY_ID MEA_VAL_ID getMeaAggKey getFilterMeaAggKey
              Date_getTime Number_ viewFilters allFields viewDimensionsRaw
              viewMeasuresRaw defaultAggregated sort folds limit processed Hprocessed)
    as (filters & keys & computedFilters & aggFilters & log & Hrun & Hn1 & Hn3 & Hn4).
  fold vd vm in Hrun.
  eexists _, log, filters, (treeShake processed keys), computedFilters, _, aggFilters,
    _, _, _.
  split; [exact Hrun|].
  split; [|split; [done|split; [|split; [done|split; [done|split; [|split]]]]]].
  - unfold slots, step_if_nonempty. f_equal.
    assert (∀ {A} (l : list A) (s : IDataQueryWorkflowStep),
      (if negb (Nat.eqb (length l) 0) then Some s else None)
      = (if l is [] then None else Some s)) as Hne by (by intros A [|a l] s).
    rewrite !Hne. reflexivity.
  - rewrite treeShake_direct. apply sublist_filter.
  - assert (length (aggergatedFilter viewFilters) = length aggFilters) as ->
      by (by eapply Forall2_length).
    destruct (aggergated viewFilters vd vm defaultAggregated) eqn:Ha.
    + apply aggergated_true in Ha.
      destruct vd as [|d vd']; [right; split; [done | by intros (_ & ? & _)]|].
      destruct aggFilters as [|a afs]; [right; split; [done | by intros (_ & _ & ?)]|].
      left. done.
    + right. split; [done|]. intros (Hagg & _).
      apply aggergated_true in Hagg.
      congruence.
  - destruct (sorted sort limit) eqn:Hsorted.
    + left. split; [reflexivity|]. by apply sorted_true.
    + right. split; [reflexivity|]. intros Hs%sorted_true. congruence.
  - apply typed_slots_sublist, slots_typed.
Qed.

(** C8: on a filter whose rule is of none of the four kinds,
    [createFilter] writes the rule to the console and returns it as it
    is, with the derived identifier of the filter; it does not throw,
    and [toWorkflow] returns whatever the rules of its filters are, as
    soon as [processExpression] returns on the computed fields. *)
Theorem createFilter_unknown_rule (f : IFilterField) (rule : IFilterRule) (env : Env) :
  FilterField.rule f = Some rule →
  Rule.type rule ∉ known_rule_types →
  createFilter_ f env
  = (Some (VisFilter.mk (getFilterMeaAggKey f) rule),
     {| viewKeys := JSSet.add id (viewKeys env) (getFilterMeaAggKey f);
        console := console env ++ [rule] |})
  ∧ ∀ viewFilters allFields viewDimensionsRaw viewMeasuresRaw defaultAggregated
      sort folds limit,
      is_Some (processedFields allFields) →
      ∃ steps log,
        toWorkflow_ (f :: viewFilters) allFields viewDimensionsRaw viewMeasuresRaw
          defaultAggregated sort folds limit = (Some steps, log).
Proof.
  intros Hrule Hunknown. split.
  - unfold createFilter, known_rule_types in *.
    rewrite !not_elem_of_cons in Hunknown.
    destruct Hunknown as (H1 & H2 & H3 & H4 & _).
    apply String.eqb_neq in H1, H2, H3, H4.
    rewrite bind_run. cbn [viewKeys_add]. rewrite bind_run. unfold attempt.
    rewrite Hrule, H1, H2, H3, H4. reflexivity.
  - intros viewFilters allFields viewDimensionsRaw viewMeasuresRaw defaultAggregated
      sort folds limit [processed Hprocessed].
    destruct (toWorkflow_returns MEA_KEY_ID MEA_VAL_ID getMeaAggKey getFilterMeaAggKey
                Date_getTime Number_ (f :: viewFilters) allFields viewDimensionsRaw
                viewMeasuresRaw defaultAggregated sort folds limit processed Hprocessed)
      as (filters & keys & computedFilters & aggFilters & log & Hrun).
    eauto.
Qed.

(** C9: when the dimension list has the reserved key field and the
    measure list has the reserved value field, the dimensions of the view
    are those of the input without the reserved key fields, followed by a
    clone of every dimension that the fold list names among the known
    fields, in the order of the fold list; the measures are those of the
    input without the reserved value fields, followed by a clone of every
    measure that the fold list names; every clone has the properties of its
    field and the aggregation function of the reserved measure.  A fold
    list without the reserved identifiers leaves none of them in its
    list. *)
Theorem fold_expansion allFields viewDimensionsRaw viewMeasuresRaw folds :
  (∃ x, x ∈ viewDimensionsRaw ∧ Obj.fid x = MEA_KEY_ID) →
  (∃ x, x ∈ viewMeasuresRaw ∧ Obj.fid x = MEA_VAL_ID) →
  let vd := viewDimensions_ allFields viewDimensionsRaw viewMeasuresRaw folds in
  let vm := viewMeasures_ allFields viewDimensionsRaw viewMeasuresRaw folds in
  let cloned (role : AnalyticType) (aggName : option string) (o : Obj.t) :=
    ∃ i k x, folds !! i = Some k
             ∧ find (fun x => String.eqb (Field.fid x) k) allFields = Some x
             ∧ Field.analyticType x = role
             ∧ o = spec_clone i x aggName in
  ∃ sentinel,
    find (fun x => String.eqb (Obj.fid x) MEA_VAL_ID) viewMeasuresRaw = Some sentinel
    ∧ vd = filter (fun x => Obj.fid x ≠ MEA_KEY_ID) viewDimensionsRaw
           ++ spec_fold_clones 0 dimension (Obj.aggName sentinel) allFields folds
    ∧ vm = filter (fun x => Obj.fid x ≠ MEA_VAL_ID) viewMeasuresRaw
           ++ spec_fold_clones 0 measure (Obj.aggName sentinel) allFields folds
    ∧ (∀ o, o ∈ vd ↔ (o ∈ viewDimensionsRaw ∧ Obj.fid o ≠ MEA_KEY_ID)
                     ∨ cloned dimension (Obj.aggName sentinel) o)
    ∧ (∀ o, o ∈ vm ↔ (o ∈ viewMeasuresRaw ∧ Obj.fid o ≠ MEA_VAL_ID)
                     ∨ cloned measure (Obj.aggName sentinel) o)
    ∧ (MEA_KEY_ID ∉ folds → MEA_KEY_ID ∉ Obj.fid <$> vd)
    ∧ (MEA_VAL_ID ∉ folds → MEA_VAL_ID ∉ Obj.fid <$> vm).
Proof.
  intros Hkey Hval vd vm cloned.
  assert (hasFold_ viewDimensionsRaw viewMeasuresRaw = true) as Hfold
    by (by apply hasFold_true).
  destruct (find (fun x => String.eqb (Obj.fid x) MEA_VAL_ID) viewMeasuresRaw)
    as [sentinel|] eqn:Hsentinel.
  2:{ unfold hasFold in Hfold. rewrite Hsentinel, andb_false_r in Hfold. done. }
  assert (foldAggName MEA_VAL_ID viewMeasuresRaw = Obj.aggName sentinel) as Hagg.
  { unfold foldAggName. by rewrite Hsentinel. }
  exists sentinel. split; [done|].
  split; [|split].
  { unfold vd, viewDimensions. by rewrite Hfold, Hagg, clones_spec. }
  { unfold vm, viewMeasures. by rewrite Hfold, Hagg, clones_spec. }
  repeat split.
  - intros [?|Hc]%elem_of_viewDimensions; [by left|]. right.
    destruct Hc as [_ Hc]. rewrite Hagg in Hc. by apply elem_of_clones in Hc.
  - intros [?|Hc]; apply elem_of_viewDimensions; [by left|]. right.
    split; [done|]. rewrite Hagg. by apply elem_of_clones.
  - intros [?|Hc]%elem_of_viewMeasures; [by left|]. right.
    destruct Hc as [_ Hc]. rewrite Hagg in Hc. by apply elem_of_clones in Hc.
  - intros [?|Hc]; apply elem_of_viewMeasures; [by left|]. right.
    split; [done|]. rewrite Hagg. by apply elem_of_clones.
  - intros Hfolds (o & Ho & [[_ Hne]|[_ Hc]]%elem_of_viewDimensions)%list_elem_of_fmap.
    + done.
    + apply clone_fid in Hc. by rewrite <- Ho in Hc.
  - intros Hfolds (o & Ho & [[_ Hne]|[_ Hc]]%elem_of_viewMeasures)%list_elem_of_fmap.
    + done.
    + apply clone_fid in Hc. by rewrite <- Ho in Hc.
Qed.

(** C10, as amended: without a fold, no dimension of the view has the
    reserved key identifier and no measure has the reserved value
    identifier.  The view step that [toWorkflow] emits names neither
    reserved identifier when the fold list names none, no dimension of
    the input has the value identifier, no measure has the key
    identifier, and no filter scoped to the aggregation is on a reserved
    identifier. *)
Theorem view_step_reserved viewFilters allFields viewDimensionsRaw viewMeasuresRaw
    defaultAggregated sort folds limit :
  (hasFold_ viewDimensionsRaw viewMeasuresRaw = false →
   (MEA_KEY_ID
      ∉ Obj.fid <$> viewDimensions_ allFields viewDimensionsRaw viewMeasuresRaw folds)
   ∧ (MEA_VAL_ID
        ∉ Obj.fid <$> viewMeasures_ allFields viewDimensionsRaw viewMeasuresRaw folds))
  ∧ (is_Some (processedFields allFields) →
     MEA_KEY_ID ∉ folds → MEA_VAL_ID ∉ folds →
     MEA_VAL_ID ∉ Obj.fid <$> viewDimensionsRaw →
     MEA_KEY_ID ∉ Obj.fid <$> viewMeasuresRaw →
     (∀ f, f ∈ viewFilters → FilterField.enableAgg f = true →
           FilterField.fid f ≠ MEA_KEY_ID ∧ FilterField.fid f ≠ MEA_VAL_ID) →
     ∃ steps log query,
       toWorkflow_ viewFilters allFields viewDimensionsRaw viewMeasuresRaw
         defaultAggregated sort folds limit = (Some steps, log)
       ∧ view_steps steps = [ViewStep [query]]
       ∧ (MEA_KEY_ID ∉ view_fids query) ∧ (MEA_VAL_ID ∉ view_fids query)).
Proof.
  set (vd := viewDimensions_ allFields viewDimensionsRaw viewMeasuresRaw folds).
  set (vm := viewMeasures_ allFields viewDimensionsRaw viewMeasuresRaw folds).
  split.
  - intros Hfold. split.
    + intros (o & Ho & [[_ Hne]|[Hf _]]%elem_of_viewDimensions)%list_elem_of_fmap;
        [done | congruence].
    + intros (o & Ho & [[_ Hne]|[Hf _]]%elem_of_viewMeasures)%list_elem_of_fmap;
        [done | congruence].
  - intros [processed Hprocessed] Hkf Hvf Hvd Hkm Hfilters.
    destruct (toWorkflow_returns MEA_KEY_ID MEA_VAL_ID getMeaAggKey getFilterMeaAggKey
                Date_getTime Number_ viewFilters allFields viewDimensionsRaw
                viewMeasuresRaw defaultAggregated sort folds limit processed Hprocessed)
      as (filters & keys & computedFilters & aggFilters & log & Hrun).
    eexists _, log, _. split; [exact Hrun|]. split; [apply slots_view_steps|].
    fold vd vm.
    assert (∀ k, k ∈ Obj.fid <$> vd →
                 (k ∈ Obj.fid <$> viewDimensionsRaw ∧ k ≠ MEA_KEY_ID) ∨ k ∈ folds) as Hd.
    { intros k (o & -> & [[Hin Hne]|[_ Hc]]%elem_of_viewDimensions)%list_elem_of_fmap.
      - left. split; [by apply list_elem_of_fmap_2 | done].
      - right. by apply clone_fid in Hc. }
    assert (∀ k, k ∈ Obj.fid <$> vm →
                 (k ∈ Obj.fid <$> viewMeasuresRaw ∧ k ≠ MEA_VAL_ID) ∨ k ∈ folds) as Hm.
    { intros k (o & -> & [[Hin Hne]|[_ Hc]]%elem_of_viewMeasures)%list_elem_of_fmap.
      - left. split; [by apply list_elem_of_fmap_2 | done].
      - right. by apply clone_fid in Hc. }
    assert (∀ k, k ∈ view_fids (viewQuery_ viewFilters vd vm defaultAggregated) →
                 k ∈ Obj.fid <$> vd ∨ k ∈ Obj.fid <$> vm
                 ∨ ∃ f, f ∈ viewFilters ∧ FilterField.enableAgg f = true
                        ∧ FilterField.fid f = k) as Hq.
    { intros k. unfold viewQuery. destruct (aggergated _ _ _ _); cbn [view_fids].
      - intros [Hg|Hms]%elem_of_app.
        + left. by apply deduper_subset in Hg.
        + apply list_elem_of_fmap in Hms as (m & -> & Hin%deduper_subset).
          apply list_elem_of_fmap in Hin as (f & -> & Hin). cbn.
          apply elem_of_app in Hin as [Hin|Hin].
          * right; left. apply list_elem_of_fmap in Hin as (o & -> & Hin).
            by apply (list_elem_of_fmap_2 Obj.fid).
          * right; right. apply list_elem_of_fmap in Hin as (ff & -> & Hin).
            apply list_elem_of_filter in Hin as [Hagg Hin].
            exists ff. split; [done|]. split; [|done].
            destruct (FilterField.enableAgg ff); done.
      - intros (o & -> & Hin%JSSet_of_list_subset)%list_elem_of_fmap.
        apply elem_of_app in Hin as [Hin|Hin].
        + left. by apply list_elem_of_fmap_2.
        + right; left. by apply list_elem_of_fmap_2. }
    split.
    + intros [Hin|[Hin|(f & Hin & Hagg & Hfid)]]%Hq.
      * apply Hd in Hin as [[_ ?]|?]; done.
      * apply Hm in Hin as [[? _]|?]; done.
      * destruct (Hfilters f Hin Hagg) as [? _]. done.
    + intros [Hin|[Hin|(f & Hin & Hagg & Hfid)]]%Hq.
      * apply Hd in Hin as [[? _]|?]; done.
      * apply Hm in Hin as [[_ ?]|?]; done.
      * destruct (Hfilters f Hin Hagg) as [_ ?]. done.
Qed.
End Claims.

(** ** The examples *)

(** C3, as stated, fails: with the default aggregation on, a measure
    without a function, and a filter that is scoped to the aggregation and
    has a function but no rule, the condition of the specification holds
    and the view is raw. *)
Lemma aggregation_needs_a_rule :
  spec_aggregation_triggers true [Sample.ruleless]
    (Sample.viewDimensions Sample.allFields [] [Obj.mk (Obj.Given 0) Sample.profit] [])
    (Sample.viewMeasures Sample.allFields [] [Obj.mk (Obj.Given 0) Sample.profit] [])
  ∧ Sample.toWorkflow [Sample.ruleless] Sample.allFields
      [] [Obj.mk (Obj.Given 0) Sample.profit] true none [] None
    = (Some [ViewStep [Raw ["profit"]]], []).
Proof.
  split; [|vm_compute; reflexivity].
  split; [reflexivity|]. right; left. exists Sample.ruleless.
  split; [apply list_elem_of_here | split; reflexivity].
Qed.

(** A region and the sum of the sales: the view aggregates. *)
Lemma toWorkflow_view_kind_witness :
  let vd := Sample.viewDimensions Sample.allFields
              [Obj.mk (Obj.Given 0) Sample.region] [Obj.mk (Obj.Given 1) Sample.sales] [] in
  let vm := Sample.viewMeasures Sample.allFields
              [Obj.mk (Obj.Given 0) Sample.region] [Obj.mk (Obj.Given 1) Sample.sales] [] in
  ∃ steps log query,
    Sample.toWorkflow [] Sample.allFields
      [Obj.mk (Obj.Given 0) Sample.region] [Obj.mk (Obj.Given 1) Sample.sales]
      true none [] None = (Some steps, log)
    ∧ view_steps steps = [ViewStep [query]]
    ∧ (aggregation_triggers true [] vd vm →
       ∃ groupBy measures, query = Aggregate groupBy measures)
    ∧ (¬ aggregation_triggers true [] vd vm → ∃ fields, query = Raw fields).
Proof.
  apply (toWorkflow_view_kind Sample.MEA_KEY_ID Sample.MEA_VAL_ID Sample.getMeaAggKey
           Sample.getFilterMeaAggKey Sample.toNumber Sample.toNumber
           [] Sample.allFields [Obj.mk (Obj.Given 0) Sample.region]
           [Obj.mk (Obj.Given 1) Sample.sales] true none [] None []).
  reflexivity.
Defined.

(** C4, as stated, fails: with the limit [-2], which is not a positive
    number, an ascending sort has its sort step. *)
Lemma negative_limit_is_sorted :
  ¬ positive_finite (Some (Num (-2)))
  ∧ Sample.toWorkflow [] Sample.allFields [] [Obj.mk (Obj.Given 0) Sample.profit]
      true ascending [] (Some (Num (-2)))
    = (Some [ViewStep [Raw ["profit"]]; SortStep ["profit"] ascending], []).
Proof.
  split; [|vm_compute; reflexivity].
  intros (z & [= <-] & Hz). lia.
Qed.

(** An ascending sort with the limit 10. *)
Lemma toWorkflow_sort_step_witness :
  ∃ steps log,
    Sample.toWorkflow [] Sample.allFields [] [Obj.mk (Obj.Given 0) Sample.profit]
      true ascending [] (Some (Num 10)) = (Some steps, log)
    ∧ ((∃ step, step ∈ steps ∧ step_type step = sort_)
       ↔ ascending ≠ none ∧ limited (Some (Num 10))).
Proof.
  apply (toWorkflow_sort_step Sample.MEA_KEY_ID Sample.MEA_VAL_ID Sample.getMeaAggKey
           Sample.getFilterMeaAggKey Sample.toNumber Sample.toNumber
           [] Sample.allFields [] [Obj.mk (Obj.Given 0) Sample.profit]
           true ascending [] (Some (Num 10)) []).
  reflexivity.
Defined.

Lemma toWorkflow_step_order_witness :
  ∃ steps log filters query by_,
    Sample.toWorkflow [Sample.regexp_filter] Sample.allFields
      [Obj.mk (Obj.Given 0) Sample.region] [Obj.mk (Obj.Given 1) Sample.sales]
      true descending [] (Some (Num 10)) = (Some steps, log)
    ∧ steps = omap id
                [ (if filters is [] then None else Some (FilterStep filters));
                  None; None; Some (ViewStep [query]); None;
                  Some (SortStep by_ descending) ]
    ∧ Forall2 (normalised Sample.getFilterMeaAggKey) [Sample.regexp_filter] filters
    ∧ step_type <$> steps `sublist_of` slot_types.
Proof.
  destruct (toWorkflow_step_order Sample.MEA_KEY_ID Sample.MEA_VAL_ID Sample.getMeaAggKey
              Sample.getFilterMeaAggKey Sample.toNumber Sample.toNumber
              [Sample.regexp_filter] Sample.allFields
              [Obj.mk (Obj.Given 0) Sample.region] [Obj.mk (Obj.Given 1) Sample.sales]
              true descending [] (Some (Num 10)) [])
    as (steps & log & filters & transform & computedFilters & query & aggFilters & by_
        & aggSlot & sortSlot & Hrun & Hsteps & Hn1 & Ht & Hn3 & Hn4 & Hagg & Hsort & Hsub).
  - reflexivity.
  - exists steps, log, filters, query, by_.
    apply sublist_nil_r in Ht. apply Forall2_nil_inv_l in Hn3, Hn4. subst transform.
    subst computedFilters aggFilters.
    destruct Hagg as [(_ & _ & _ & Hne)|[-> _]]; [done|].
    destruct Hsort as [[-> _]|[_ Hnot]].
    + by repeat split.
    + exfalso. apply Hnot. split; [done|]. exists (Num 10). by repeat split.
Defined.

(** The workflow of that view: a filter, the view and the sort step. *)
Example toWorkflow_example :
  Sample.toWorkflow [Sample.regexp_filter] Sample.allFields
    [Obj.mk (Obj.Given 0) Sample.region] [Obj.mk (Obj.Given 1) Sample.sales]
    true descending [] (Some (Num 10))
  = (Some [FilterStep [VisFilter.mk "region" Sample.regexp_rule];
           ViewStep [Aggregate ["region"] [Measure.mk "sales" (Some "sum") "sales_sum"]];
           SortStep ["sales_sum"] descending],
     [Sample.regexp_rule]).
Proof. vm_compute. reflexivity. Qed.

Lemma createFilter_unknown_rule_witness :
  Sample.createFilter Sample.regexp_filter Sample.env0
  = (Some (VisFilter.mk "region" Sample.regexp_rule),
     {| viewKeys := ["region"]; console := [Sample.regexp_rule] |})
  ∧ ∀ viewFilters allFields viewDimensionsRaw viewMeasuresRaw defaultAggregated
      sort folds limit,
      is_Some (processedFields allFields) →
      ∃ steps log,
        Sample.toWorkflow (Sample.regexp_filter :: viewFilters) allFields
          viewDimensionsRaw viewMeasuresRaw defaultAggregated sort folds limit
        = (Some steps, log).
Proof.
  apply (createFilter_unknown_rule Sample.MEA_KEY_ID Sample.MEA_VAL_ID Sample.getMeaAggKey
           Sample.getFilterMeaAggKey Sample.toNumber Sample.toNumber
           Sample.regexp_filter Sample.regexp_rule Sample.env0).
  - reflexivity.
  - intros H. unfold known_rule_types in H.
    repeat (apply elem_of_cons in H as [H|H]; [discriminate H|]).
    by apply elem_of_nil in H.
Defined.

(** The fold example of the specification: the reserved fields leave the
    lists, and [revenue] and [cost] join the measures with the function
    [sum] of the reserved measure. *)
Example fold_expansion_example :
  Sample.viewDimensions Sample.allFields
    [Obj.mk (Obj.Given 0) Sample.keySentinel] [Obj.mk (Obj.Given 1) Sample.valueSentinel]
    ["revenue"; "cost"] = []
  ∧ Sample.viewMeasures Sample.allFields
      [Obj.mk (Obj.Given 0) Sample.keySentinel] [Obj.mk (Obj.Given 1) Sample.valueSentinel]
      ["revenue"; "cost"]
    = [Obj.mk (Obj.Cloned 0) (Field.mk "revenue" "Revenue" measure (Some "sum") false None);
       Obj.mk (Obj.Cloned 1) (Field.mk "cost" "Cost" measure (Some "sum") false None)].
Proof. split; reflexivity. Qed.

Lemma fold_expansion_witness :
  let vd := Sample.viewDimensions Sample.allFields
              [Obj.mk (Obj.Given 0) Sample.keySentinel]
              [Obj.mk (Obj.Given 1) Sample.valueSentinel] ["revenue"; "cost"] in
  let vm := Sample.viewMeasures Sample.allFields
              [Obj.mk (Obj.Given 0) Sample.keySentinel]
              [Obj.mk (Obj.Given 1) Sample.valueSentinel] ["revenue"; "cost"] in
  vd = []
  ∧ vm = [Obj.mk (Obj.Cloned 0)
            (Field.mk "revenue" "Revenue" measure (Some "sum") false None);
          Obj.mk (Obj.Cloned 1) (Field.mk "cost" "Cost" measure (Some "sum") false None)]
  ∧ (Sample.MEA_KEY_ID ∉ Obj.fid <$> vd)
  ∧ (Sample.MEA_VAL_ID ∉ Obj.fid <$> vm).
Proof.
  intros vd vm.
  destruct (fold_expansion Sample.MEA_KEY_ID Sample.MEA_VAL_ID Sample.allFields
              [Obj.mk (Obj.Given 0) Sample.keySentinel]
              [Obj.mk (Obj.Given 1) Sample.valueSentinel] ["revenue"; "cost"])
    as (sentinel & Hsentinel & Hvd & Hvm & _ & _ & Hkey & Hval).
  - eexists. split; [apply list_elem_of_here | reflexivity].
  - eexists. split; [apply list_elem_of_here | reflexivity].
  - injection Hsentinel as <-.
    split; [exact Hvd|]. split; [exact Hvm|]. split.
    + apply Hkey. intros H.
      repeat (apply elem_of_cons in H as [H|H]; [discriminate H|]).
      by apply elem_of_nil in H.
    + apply Hval. intros H.
      repeat (apply elem_of_cons in H as [H|H]; [discriminate H|]).
      by apply elem_of_nil in H.
Defined.

(** C10, as stated, fails: a fold list that names the reserved value
    identifier brings it back among the measures, and the view step
    aggregates it. *)
Lemma fold_list_names_reserved :
  Sample.toWorkflow [] Sample.allFields
    [Obj.mk (Obj.Given 0) Sample.keySentinel] [Obj.mk (Obj.Given 1) Sample.valueSentinel]
    true none [Sample.MEA_VAL_ID] None
  = (Some [ViewStep [Aggregate [] [Measure.mk Sample.MEA_VAL_ID (Some "sum")
                                     "gw_mea_val_fid_sum"]]], [])
  ∧ Sample.MEA_VAL_ID
    ∈ view_fids (Aggregate [] [Measure.mk Sample.MEA_VAL_ID (Some "sum")
                                 "gw_mea_val_fid_sum"]).
Proof.
  split; [vm_compute; reflexivity | apply list_elem_of_here].
Qed.

(** A view with the reserved key field alone: there is no fold, and the
    view step names the region and the sales. *)
Lemma view_step_reserved_witness :
  let dims := [Obj.mk (Obj.Given 0) Sample.keySentinel; Obj.mk (Obj.Given 1) Sample.region] in
  let meas := [Obj.mk (Obj.Given 2) Sample.sales] in
  ((Sample.MEA_KEY_ID ∉ Obj.fid <$> Sample.viewDimensions Sample.allFields dims meas ["revenue"])
   ∧ (Sample.MEA_VAL_ID ∉ Obj.fid <$> Sample.viewMeasures Sample.allFields dims meas ["revenue"]))
  ∧ ∃ steps log query,
      Sample.toWorkflow [] Sample.allFields dims meas true none ["revenue"] None
      = (Some steps, log)
      ∧ view_steps steps = [ViewStep [query]]
      ∧ (Sample.MEA_KEY_ID ∉ view_fids query) ∧ (Sample.MEA_VAL_ID ∉ view_fids query).
Proof.
  intros dims meas.
  destruct (view_step_reserved Sample.MEA_KEY_ID Sample.MEA_VAL_ID Sample.getMeaAggKey
              Sample.getFilterMeaAggKey Sample.toNumber Sample.toNumber
              [] Sample.allFields dims meas true none ["revenue"] None) as [Hlists Hview].
  split; [apply Hlists; reflexivity|].
  apply Hview.
  - by eexists.
  - intros H. repeat (apply elem_of_cons in H as [H|H]; [discriminate H|]).
    by apply elem_of_nil in H.
  - intros H. repeat (apply elem_of_cons in H as [H|H]; [discriminate H|]).
    by apply elem_of_nil in H.
  - intros H. repeat (apply elem_of_cons in H as [H|H]; [discriminate H|]).
    by apply elem_of_nil in H.
  - intros H. repeat (apply elem_of_cons in H as [H|H]; [discriminate H|]).
    by apply elem_of_nil in H.
  - intros f Hf. by apply elem_of_nil in Hf.
Defined.

(** * Further properties of the code *)

(** ** [walkExpression] *)

(** The walk over a list of parameters, as the loop of [walkExpression]
    runs it. *)
Lemma walkExpression_unfold {S : Type} (o : string) (ps : list IExpParameter) (a : string)
    (each : string → S → S) (s : S) :
  walkExpression (mkExpression o ps a) each s
  = foldl (fun s param =>
             match param with
             | PField value => each value s
             | PExpression value => walkExpression value each s
             | _ => s
             end) s ps.
Proof.
  cbn. revert s. induction ps as [|param ps IH]; intros s; [done|]. cbn. by rewrite <- IH.
Qed.

(** Induction on an expression, with the hypothesis on the expressions
    among its parameters. *)
Lemma IExpression_nested_ind (P : IExpression → Prop) :
  (∀ o ps a, (∀ e, PExpression e ∈ ps → P e) → P (mkExpression o ps a)) →
  ∀ e, P e.
Proof.
  intros Hstep.
  fix IH 1. intros [o ps a]. apply Hstep.
  assert (Forall (fun param => match param with
                               | PExpression e => P e
                               | _ => True
                               end) ps) as Hps.
  { clear -IH. induction ps as [|param ps IHps]; constructor; [|exact IHps].
    destruct param; try exact I. apply IH. }
  clear IH. intros e Hin. rewrite Forall_forall in Hps. exact (Hps _ Hin).
Qed.

(** The walk only adds to the set it collects into, and what it adds are
    the fields that the expression refers to. *)
Lemma walk_collects (e : IExpression) (refs : gset string) (k : string) :
  k ∈ walkExpression e (fun field refs => {[field]} ∪ refs) refs
  ↔ k ∈ refs ∨ refers e k.
Proof.
  revert refs. induction e as [o ps a IH] using IExpression_nested_ind. intros refs.
  rewrite walkExpression_unfold.
  enough (∀ refs : gset string,
    k ∈ foldl (fun s param =>
                 match param with
                 | PField value => {[value]} ∪ s
                 | PExpression value =>
                     walkExpression value (fun field refs => {[field]} ∪ refs) s
                 | _ => s
                 end) refs ps
    ↔ k ∈ refs ∨ PField k ∈ ps ∨ ∃ e, PExpression e ∈ ps ∧ refers e k) as Hps.
  { rewrite Hps. split.
    - intros [?|[?|(e & ? & ?)]]; [by left | right.. ].
      + by apply refers_field.
      + by eapply refers_nested.
    - intros [?|Hr]; [by left|]. right. inversion Hr; subst; eauto. }
  clear refs. induction ps as [|param ps IHps]; intros refs.
  - cbn. split; [by left|].
    intros [?|[Hin|(e & Hin & _)]]; [done | by apply elem_of_nil in Hin..].
  - cbn [foldl]. rewrite IHps.
    2:{ intros e Hin. apply IH. by apply list_elem_of_further. }
    assert (∀ q : IExpParameter, q ∈ param :: ps ↔ q = param ∨ q ∈ ps) as Hcons
      by (intros q; apply elem_of_cons).
    destruct param as [f|e'|m|t v].
    + rewrite elem_of_union, elem_of_singleton, Hcons. split.
      * intros [[->|?]|[?|(e & ? & ?)]]; eauto 6.
        right; right. exists e. rewrite Hcons. eauto.
      * intros [?|[[[= ->]|?]|(e & [?|?]%Hcons & ?)]]; try done; eauto 8.
    + rewrite (IH e') by apply list_elem_of_here. rewrite Hcons. split.
      * intros [[?|?]|[?|(e & ? & ?)]]; eauto 6.
        -- right; right. exists e'. split; [apply list_elem_of_here | done].
        -- right; right. exists e. rewrite Hcons. eauto.
      * intros [?|[[?|?]|(e & [[= ->]|?]%Hcons & ?)]]; try done; eauto 8.
    + rewrite Hcons. split.
      * intros [?|[?|(e & ? & ?)]]; eauto 6.
        right; right. exists e. rewrite Hcons. eauto.
      * intros [?|[[?|?]|(e & [?|?]%Hcons & ?)]]; try done; eauto 8.
    + rewrite Hcons. split.
      * intros [?|[?|(e & ? & ?)]]; eauto 6.
        right; right. exists e. rewrite Hcons. eauto.
      * intros [?|[[?|?]|(e & [?|?]%Hcons & ?)]]; try done; eauto 8.
Qed.

(** X1: the fields that [walkExpression] visits are the fields that
    the expression refers to, through parameters of type ['field'] at any
    depth of nesting; parameters of the other types add none. *)
Theorem fieldRefs_refers (e : IExpression) (k : string) :
  k ∈ fieldRefs e ↔ refers e k.
Proof.
  unfold fieldRefs. rewrite walk_collects. split; [|by right].
  intros [Hin|?]; [|done]. by apply not_elem_of_empty in Hin.
Qed.

(** ** [Set] and [deduper] *)

Section JSSetFacts.
Context {A K : Type} `{EqDecision K} (ident : A → K).

Lemma JSSet_add_app (s : list A) (a : A) :
  JSSet.add ident s a = s ++ (if decide (ident a ∈ ident <$> s) then [] else [a]).
Proof.
  unfold JSSet.add, JSSet.has. destruct (decide (ident a ∈ ident <$> s)).
  - by rewrite bool_decide_eq_true_2, app_nil_r.
  - by rewrite bool_decide_eq_false_2.
Qed.

Lemma JSSet_fold_spec (items s : list A) :
  NoDup (ident <$> s) →
  ∃ r, foldl (JSSet.add ident) s items = s ++ r
       ∧ r `sublist_of` items
       ∧ NoDup (ident <$> (s ++ r))
       ∧ ∀ x, x ∈ r ↔ ∃ l1 l2, items = l1 ++ x :: l2
                               ∧ (ident x ∉ ident <$> l1) ∧ (ident x ∉ ident <$> s).
Proof.
  revert s. induction items as [|a items IH]; intros s Hs.
  - exists []. rewrite app_nil_r. repeat split; try done.
    + intros Hx. by apply elem_of_nil in Hx.
    + intros (l1 & l2 & Heq & _). by destruct l1.
  - cbn [foldl]. rewrite JSSet_add_app.
    destruct (decide (ident a ∈ ident <$> s)) as [Hin|Hnin].
    + rewrite app_nil_r. destruct (IH s Hs) as (r & Hr & Hsub & Hnd & Hchar).
      exists r. split; [done|]. split; [by apply sublist_cons|]. split; [done|].
      intros x. rewrite Hchar. split.
      * intros (l1 & l2 & -> & H1 & H2). exists (a :: l1), l2.
        repeat split; try done. rewrite fmap_cons, not_elem_of_cons. split; [|done].
        intros Heq. by rewrite Heq in H2.
      * intros (l1 & l2 & Heq & H1 & H2). destruct l1 as [|b l1].
        -- injection Heq as -> ->. done.
        -- injection Heq as -> ->. rewrite fmap_cons, not_elem_of_cons in H1.
           exists l1, l2. by destruct H1.
    + assert (NoDup (ident <$> (s ++ [a]))) as Hs'.
      { rewrite fmap_app. apply NoDup_app. repeat split; [done| |apply NoDup_singleton].
        intros k Hk ->%list_elem_of_singleton. done. }
      destruct (IH (s ++ [a]) Hs') as (r & Hr & Hsub & Hnd & Hchar).
      exists (a :: r). rewrite Hr, <- app_assoc. split; [done|].
      split; [by apply sublist_skip|]. split; [by rewrite <- app_assoc in Hnd|].
      intros x. rewrite elem_of_cons, Hchar. split.
      * intros [->|(l1 & l2 & -> & H1 & H2)].
        -- exists [], items. repeat split; [apply not_elem_of_nil | done].
        -- rewrite fmap_app, not_elem_of_app in H2. destruct H2 as [H2 H3].
           exists (a :: l1), l2. repeat split; [|done].
           rewrite fmap_cons, not_elem_of_cons. split; [|done].
           intros Heq. apply H3. rewrite Heq. apply list_elem_of_here.
      * intros (l1 & l2 & Heq & H1 & H2). destruct l1 as [|b l1].
        -- injection Heq as -> ->. by left.
        -- injection Heq as -> ->. rewrite fmap_cons, not_elem_of_cons in H1.
           right. exists l1, l2. repeat split; [tauto|].
           rewrite fmap_app, not_elem_of_app. split; [done|].
           intros Hx%list_elem_of_singleton. destruct H1 as [H1 _]. done.
Qed.

Lemma JSSet_of_list_NoDup (items : list A) :
  NoDup (ident <$> JSSet.of_list ident items).
Proof.
  unfold JSSet.of_list.
  by destruct (JSSet_fold_spec items []) as (r & -> & _ & Hnd & _); [apply NoDup_nil_2|].
Qed.

Lemma JSSet_fold_idents (items s : list A) (k : K) :
  k ∈ ident <$> foldl (JSSet.add ident) s items ↔ k ∈ ident <$> s ∨ k ∈ ident <$> items.
Proof.
  revert s. induction items as [|a items IH]; intros s; cbn [foldl].
  - rewrite fmap_nil, elem_of_nil. tauto.
  - rewrite IH, JSSet_add_app, fmap_cons, elem_of_cons.
    destruct (decide (ident a ∈ ident <$> s)) as [Hin|Hnin].
    + rewrite app_nil_r. split; [tauto|]. intros [?|[->|?]]; tauto.
    + rewrite fmap_app, elem_of_app. cbn [fmap list_fmap].
      rewrite list_elem_of_singleton. tauto.
Qed.

(** Every identity of the input is in the set. *)
Lemma JSSet_of_list_idents (items : list A) (k : K) :
  k ∈ ident <$> JSSet.of_list ident items ↔ k ∈ ident <$> items.
Proof.
  unfold JSSet.of_list. rewrite JSSet_fold_idents, fmap_nil, elem_of_nil. tauto.
Qed.


(** [new Set(items)] holds every identity once; it is the input
    without some of its items, in the order of the input; and an item is
    in the set when it is the first item of the input with its identity. *)
Lemma JSSet_of_list_spec (items : list A) :
  NoDup (ident <$> JSSet.of_list ident items)
  ∧ JSSet.of_list ident items `sublist_of` items
  ∧ ∀ x, x ∈ JSSet.of_list ident items
         ↔ ∃ l1 l2, items = l1 ++ x :: l2 ∧ ident x ∉ ident <$> l1.
Proof.
  unfold JSSet.of_list.
  destruct (JSSet_fold_spec items []) as (r & -> & Hsub & Hnd & Hchar);
    [apply NoDup_nil_2|].
  cbn [app] in *. repeat split; try done.
  - intros (l1 & l2 & ? & ? & _)%Hchar. eauto.
  - intros (l1 & l2 & ? & ?). apply Hchar. exists l1, l2. repeat split; try done.
    apply not_elem_of_nil.
Qed.
End JSSetFacts.

Section DeduperFacts.
Context {T : Type}.

Lemma JSMap_set_keys (m : list (string * T)) (k : string) (v : T) :
  (JSMap.set m k v).*1 = JSSet.add id m.*1 k.
Proof.
  rewrite JSSet_add_app. induction m as [|[k' v'] m IH]; [done|].
  cbn [JSMap.set fmap list_fmap fst]. rewrite list_fmap_id in *.
  destruct (decide (k' = k)) as [->|Hne].
  - cbn. rewrite decide_True by apply list_elem_of_here. by rewrite app_nil_r.
  - cbn [fmap list_fmap fst]. rewrite IH. cbn [app]. f_equal. f_equal. unfold id.
    destruct (decide (k ∈ m.*1)) as [Hin|Hnin].
    + rewrite decide_True; [done | by apply list_elem_of_further].
    + rewrite decide_False; [done|]. rewrite not_elem_of_cons. split; [done | done].
Qed.

Lemma JSMap_set_elem_of (m : list (string * T)) (k : string) (v : T) (k' : string) (v' : T) :
  NoDup m.*1 →
  (k', v') ∈ JSMap.set m k v ↔ (k' = k ∧ v' = v) ∨ (k' ≠ k ∧ (k', v') ∈ m).
Proof.
  induction m as [|[k0 v0] m IH]; intros Hnd; cbn [JSMap.set].
  - rewrite list_elem_of_singleton. split.
    + intros [= -> ->]. by left.
    + intros [[-> ->]|[_ Hin]]; [done | by apply elem_of_nil in Hin].
  - apply NoDup_cons in Hnd as [Hk0 Hnd]. destruct (decide (k0 = k)) as [->|Hne].
    + rewrite !elem_of_cons. split.
      * intros [[= -> ->]|Hin]; [by left|]. right. split; [|by right].
        intros ->. apply Hk0. by apply (list_elem_of_fmap_2 fst) in Hin.
      * intros [[-> ->]|[Hne [[= -> ->]|Hin]]]; [by left | done | by right].
    + rewrite !elem_of_cons, IH by done. split.
      * intros [[= -> ->]|[?|[? ?]]]; [right | by left | right]; split; try done.
        -- by left.
        -- by right.
      * intros [?|[? [?|?]]]; [right; by left | by left | right; by right].
Qed.

(** The map that [deduper] fills: its keys are the distinct keys of the
    items, in the order in which they first come, and the value of a key is
    the last item that has it. *)
Lemma deduper_map_spec (items : list T) (keyF : T → string) :
  let m := foldl (fun map x => JSMap.set map (keyF x) x) [] items in
  m.*1 = JSSet.of_list id (keyF <$> items)
  ∧ ∀ k v, (k, v) ∈ m ↔ k = keyF v ∧ ∃ l1 l2, items = l1 ++ v :: l2
                                               ∧ keyF v ∉ keyF <$> l2.
Proof.
  induction items as [|a items IH] using rev_ind.
  - cbn. split; [done|]. intros k v. split.
    + intros Hin. by apply elem_of_nil in Hin.
    + intros (_ & l1 & l2 & Heq & _). by destruct l1.
  - cbn zeta in *. destruct IH as [Hkeys Hchar].
    rewrite foldl_app. cbn [foldl]. split.
    + rewrite JSMap_set_keys, Hkeys. unfold JSSet.of_list.
      by rewrite fmap_app, foldl_app.
    + intros k v. rewrite JSMap_set_elem_of.
      2:{ rewrite Hkeys. rewrite <- (list_fmap_id (JSSet.of_list _ _)).
          apply (JSSet_of_list_NoDup id). }
      rewrite Hchar. split.
      * intros [[-> ->]|(Hne & -> & l1 & l2 & -> & Hl2)].
        -- split; [done|]. exists items, []. split; [done | apply not_elem_of_nil].
        -- split; [done|]. exists l1, (l2 ++ [a]). rewrite <- app_assoc. split; [done|].
           rewrite fmap_app, not_elem_of_app. split; [done|].
           intros Heq%list_elem_of_singleton. done.
      * intros (-> & l1 & l2 & Heq & Hl2).
        destruct l2 as [|b l2 _] using rev_ind.
        -- apply app_inj_tail in Heq as [-> ->]. by left.
        -- rewrite app_comm_cons, app_assoc in Heq.
           apply app_inj_tail in Heq as [-> ->].
           rewrite fmap_app, not_elem_of_app in Hl2. destruct Hl2 as [Hl2 Hb].
           right. split.
           { intros Heq. apply Hb. rewrite Heq. apply list_elem_of_here. }
           split; [done|]. eauto.
Qed.

Lemma deduper_keys (items : list T) (keyF : T → string) :
  keyF <$> deduper items keyF = JSSet.of_list id (keyF <$> items).
Proof.
  destruct (deduper_map_spec items keyF) as [<- Hchar]. unfold deduper, JSMap.values.
  set (m := foldl _ [] items) in *.
  assert (∀ k v, (k, v) ∈ m → k = keyF v) as Hkey by (intros k v Hin; by apply Hchar).
  clearbody m. clear Hchar.
  induction m as [|[k v] m IH]; [done|]. cbn. f_equal.
  - symmetry. apply (Hkey k v). apply list_elem_of_here.
  - apply IH. intros k' v' Hin. apply Hkey. by apply list_elem_of_further.
Qed.

Lemma deduper_keys_NoDup (items : list T) (keyF : T → string) :
  NoDup (keyF <$> deduper items keyF).
Proof.
  rewrite deduper_keys, <- (list_fmap_id (JSSet.of_list _ _)).
  apply (JSSet_of_list_NoDup id).
Qed.

Lemma deduper_keys_elem_of (items : list T) (keyF : T → string) (k : string) :
  k ∈ keyF <$> deduper items keyF ↔ k ∈ keyF <$> items.
Proof.
  rewrite deduper_keys.
  pose proof (JSSet_of_list_idents id (keyF <$> items) k) as Hid.
  by rewrite !list_fmap_id in Hid.
Qed.

Lemma deduper_fixed (items : list T) (keyF : T → string) :
  NoDup (keyF <$> items) → deduper items keyF = items.
Proof.
  intros Hnd. unfold deduper, JSMap.values.
  enough (foldl (fun map x => JSMap.set map (keyF x) x) [] items
          = (fun x => (keyF x, x)) <$> items) as ->.
  { rewrite <- list_fmap_compose. apply list_fmap_id. }
  induction items as [|a items IH] using rev_ind; [done|].
  rewrite foldl_app, fmap_app. cbn [foldl]. rewrite fmap_app in Hnd.
  apply NoDup_app in Hnd as (Hnd & Hdisj & _). rewrite IH by done.
  clear IH Hnd.
  assert (keyF a ∉ keyF <$> items) as Ha.
  { intros Hin. apply (Hdisj _ Hin). apply list_elem_of_here. }
  clear Hdisj. induction items as [|b items IH]; [done|].
  rewrite fmap_cons, not_elem_of_cons in Ha. destruct Ha as [Hne Ha].
  cbn. rewrite decide_False by done. f_equal. by apply IH.
Qed.

(** X2: the keys of what [deduper] returns are the keys of the items,
    each once, in the order that they have among the items. *)
Theorem deduper_distinct_keys (items : list T) (keyF : T → string) :
  NoDup (keyF <$> deduper items keyF)
  ∧ keyF <$> deduper items keyF `sublist_of` keyF <$> items
  ∧ ∀ k, k ∈ keyF <$> deduper items keyF ↔ k ∈ keyF <$> items.
Proof.
  split; [apply deduper_keys_NoDup|]. split; [|apply deduper_keys_elem_of].
  rewrite deduper_keys. unfold JSSet.of_list.
  by destruct (JSSet_fold_spec id (keyF <$> items) []) as (r & -> & Hsub & _);
    [apply NoDup_nil_2|].
Qed.

(** X3: of the items that share a key, [deduper] returns the last:
    an item is returned when no item after it has its key. *)
Theorem deduper_last_wins (items : list T) (keyF : T → string) (x : T) :
  x ∈ deduper items keyF
  ↔ ∃ l1 l2, items = l1 ++ x :: l2 ∧ keyF x ∉ keyF <$> l2.
Proof.
  destruct (deduper_map_spec items keyF) as [_ Hchar]. unfold deduper, JSMap.values.
  rewrite list_elem_of_fmap. split.
  - intros ([k v] & -> & Hin). by apply Hchar in Hin as [_ ?].
  - intros Hx. exists (keyF x, x). split; [done|]. by apply Hchar.
Qed.

(** X4: items whose keys are distinct are returned as they are; so
    [deduper] changes nothing in what it returned. *)
Theorem deduper_idempotent (items : list T) (keyF : T → string) :
  (NoDup (keyF <$> items) → deduper items keyF = items)
  ∧ deduper (deduper items keyF) keyF = deduper items keyF.
Proof.
  split; [apply deduper_fixed|]. apply deduper_fixed, deduper_keys_NoDup.
Qed.
End DeduperFacts.

(** ** [createFilter] and the steps of [toWorkflow] *)

Section RunFacts.
Variables MEA_KEY_ID MEA_VAL_ID : string.
Variable getMeaAggKey : string → option string → string.
Variable getFilterMeaAggKey : IFilterField → string.
Variable Date_getTime : option Literal → number.
Variable Number_ : option Literal → number.

Local Abbreviation createFilter_ := (createFilter getFilterMeaAggKey Date_getTime Number_).
Local Abbreviation viewDimensions_ := (viewDimensions MEA_KEY_ID MEA_VAL_ID).
Local Abbreviation viewMeasures_ := (viewMeasures MEA_KEY_ID MEA_VAL_ID).
Local Abbreviation toWorkflow_ :=
  (toWorkflow MEA_KEY_ID MEA_VAL_ID getMeaAggKey getFilterMeaAggKey Date_getTime Number_).
Local Abbreviation slots_ := (slots getMeaAggKey).
Local Abbreviation viewQuery_ := (viewQuery getMeaAggKey).

(** X5: on a rule of one of the four kinds, [createFilter] writes
    nothing to the console, adds the derived identifier to [viewKeys], and
    returns a rule of the same kind: with the same values for ['one of']
    and ['not in'], with the two numbers that [Number] makes of the first
    two values for ['range'], and with the two times that [Date] makes of
    them for ['temporal range']. *)
Theorem createFilter_known_rule (f : IFilterField) (rule : IFilterRule) (env : Env) :
  FilterField.rule f = Some rule →
  Rule.type rule ∈ known_rule_types →
  ∃ v,
    createFilter_ f env
    = (Some v, {| viewKeys := JSSet.add id (viewKeys env) (getFilterMeaAggKey f);
                  console := console env |})
    ∧ VisFilter.fid v = getFilterMeaAggKey f
    ∧ Rule.type (VisFilter.rule v) = Rule.type rule
    ∧ (Rule.type rule = "one of" ∨ Rule.type rule = "not in" →
       VisFilter.rule v = rule)
    ∧ (Rule.type rule = "range" →
       Rule.value (VisFilter.rule v)
       = [LNumber (Number_ (Rule.value rule !! 0)); LNumber (Number_ (Rule.value rule !! 1))])
    ∧ (Rule.type rule = "temporal range" →
       Rule.value (VisFilter.rule v)
       = [LNumber (Date_getTime (Rule.value rule !! 0));
          LNumber (Date_getTime (Rule.value rule !! 1))]).
Proof.
  intros Hrule Hknown. unfold createFilter.
  rewrite bind_run. cbn [viewKeys_add]. rewrite bind_run. unfold attempt. rewrite Hrule.
  destruct rule as [type value]. cbn [Rule.type Rule.value] in *.
  unfold known_rule_types in Hknown.
  repeat (apply elem_of_cons in Hknown as [->|Hknown];
          [cbn; eexists; split; [reflexivity|];
           repeat split; try done; intros [?|?]; done|]).
  by apply elem_of_nil in Hknown.
Qed.

Lemma createFilter_run (f : IFilterField) (rule : IFilterRule) (env : Env) :
  FilterField.rule f = Some rule →
  ∃ v,
    createFilter_ f env
    = (Some v, {| viewKeys := JSSet.add id (viewKeys env) (getFilterMeaAggKey f);
                  console := console env ++ (if rule_known rule then [] else [rule]) |})
    ∧ VisFilter.fid v = getFilterMeaAggKey f.
Proof.
  intros Hrule. unfold createFilter.
  rewrite bind_run. cbn [viewKeys_add]. rewrite bind_run. unfold attempt. rewrite Hrule.
  unfold rule_known, known_rule_types.
  destruct (String.eqb_spec (Rule.type rule) "one of") as [->|H1].
  { rewrite app_nil_r. by eexists. }
  destruct (String.eqb_spec (Rule.type rule) "temporal range") as [->|H2].
  { rewrite app_nil_r. by eexists. }
  destruct (String.eqb_spec (Rule.type rule) "not in") as [->|H3].
  { rewrite app_nil_r. by eexists. }
  destruct (String.eqb_spec (Rule.type rule) "range") as [->|H4].
  { rewrite app_nil_r. by eexists. }
  rewrite bool_decide_eq_false_2.
  - eexists. split; reflexivity.
  - rewrite !not_elem_of_cons. repeat split; try done. apply not_elem_of_nil.
Qed.

Lemma mapM_createFilter_run (l : list IFilterField) (env : Env) :
  Forall (fun f => is_Some (FilterField.rule f)) l →
  ∃ vs,
    mapM createFilter_ l env
    = (Some vs, {| viewKeys := foldl (JSSet.add id) (viewKeys env) (getFilterMeaAggKey <$> l);
                   console := console env ++ unknown_rules l |})
    ∧ VisFilter.fid <$> vs = getFilterMeaAggKey <$> l.
Proof.
  intros Hl. revert env. induction Hl as [|f l [rule Hrule] _ IH]; intros env.
  - exists []. unfold unknown_rules. cbn. rewrite app_nil_r. by destruct env.
  - destruct (createFilter_run f rule env Hrule) as (v & Hv & Hfid).
    destruct (IH {| viewKeys := JSSet.add id (viewKeys env) (getFilterMeaAggKey f);
                    console := console env ++ (if rule_known rule then [] else [rule]) |})
      as (vs & Hvs & Hfids).
    exists (v :: vs). cbn [mapM]. rewrite bind_run, Hv, bind_run, Hvs, ret_run.
    split; [|by rewrite !fmap_cons, Hfid, Hfids].
    cbn [viewKeys console fmap list_fmap foldl]. do 2 f_equal.
    rewrite <- app_assoc. f_equal. unfold unknown_rules.
    change (omap FilterField.rule (f :: l))
      with (match FilterField.rule f with
            | Some rule => rule :: omap FilterField.rule l
            | None => omap FilterField.rule l
            end).
    rewrite Hrule, filter_cons. destruct (rule_known rule).
    + by rewrite decide_False.
    + by rewrite decide_True.
Qed.

Lemma filtered_have_rules (P : IFilterField → bool) (viewFilters : list IFilterField) :
  (∀ f, P f = true → is_some (FilterField.rule f) = true) →
  Forall (fun f => is_Some (FilterField.rule f)) (filter (fun f => P f) viewFilters).
Proof.
  intros HP. apply Forall_forall. intros f [Hf%Is_true_true%HP _]%list_elem_of_filter.
  by destruct (FilterField.rule f).
Qed.

(** The run of [toWorkflow]: the slots it fills, the identifiers of the
    filters of its three filter steps, the keys it shakes the computed
    fields with, and what it writes to the console. *)
Lemma toWorkflow_run viewFilters allFields viewDimensionsRaw viewMeasuresRaw
    defaultAggregated sort folds limit :
  let vd := viewDimensions_ allFields viewDimensionsRaw viewMeasuresRaw folds in
  let vm := viewMeasures_ allFields viewDimensionsRaw viewMeasuresRaw folds in
  let keys :=
    foldl (JSSet.add id)
      (JSSet.of_list id ((Obj.fid <$> vd) ++ (Obj.fid <$> vm)
                         ++ (FilterField.fid <$> viewFilters)))
      (getFilterMeaAggKey <$> detailFilters viewFilters) in
  let aggStep :=
    aggergated viewFilters vd vm defaultAggregated && Nat.ltb 0 (length vd)
    && Nat.ltb 0 (length (aggergatedFilter viewFilters)) in
  match processedFields allFields with
  | None =>
      toWorkflow_ viewFilters allFields viewDimensionsRaw viewMeasuresRaw
        defaultAggregated sort folds limit
      = (None, unknown_rules (detailFilters viewFilters))
  | Some processed =>
      ∃ filters computedFilters aggFilters,
        toWorkflow_ viewFilters allFields viewDimensionsRaw viewMeasuresRaw
          defaultAggregated sort folds limit
        = (Some (omap id (slots_ viewFilters vd vm defaultAggregated sort limit
                            filters (treeShake processed keys) computedFilters aggFilters)),
           unknown_rules (detailFilters viewFilters)
           ++ unknown_rules (transformedFilters viewFilters)
           ++ (if aggStep then unknown_rules (aggergatedFilter viewFilters) else []))
        ∧ VisFilter.fid <$> filters = getFilterMeaAggKey <$> detailFilters viewFilters
        ∧ VisFilter.fid <$> computedFilters
          = getFilterMeaAggKey <$> transformedFilters viewFilters
        ∧ VisFilter.fid <$> aggFilters
          = getFilterMeaAggKey <$> aggergatedFilter viewFilters
  end.
Proof.
  intros vd vm keys aggStep. unfold toWorkflow, toWorkflow_body. cbv zeta.
  fold vd vm. fold (detailFilters viewFilters) (transformedFilters viewFilters).
  set (env0 := {| viewKeys := _; console := [] |}).
  destruct (mapM_createFilter_run (detailFilters viewFilters) env0)
    as (filters & H1 & Hf1).
  { apply filtered_have_rules. intros f Hf. by destruct (is_some (FilterField.rule f));
      [|rewrite andb_false_r in Hf]. }
  rewrite bind_run, H1, bind_run. unfold attempt.
  destruct (processedFields allFields) as [processed|]; [|reflexivity].
  rewrite bind_run. cbn [viewKeys_get viewKeys console env0].
  set (env1 := {| viewKeys := _; console := _ |}).
  destruct (mapM_createFilter_run (transformedFilters viewFilters) env1)
    as (computedFilters & H3 & Hf3).
  { apply filtered_have_rules. intros f Hf. by destruct (is_some (FilterField.rule f));
      [|rewrite andb_false_r in Hf]. }
  rewrite bind_run, H3. set (env3 := {| viewKeys := _; console := _ |}).
  destruct (mapM_createFilter_run (aggergatedFilter viewFilters) env3)
    as (aggFilters & H4 & Hf4).
  { apply filtered_have_rules. intros f Hf. by destruct (is_some (FilterField.rule f));
      [|rewrite andb_false_r in Hf]. }
  rewrite bind_run. exists filters, computedFilters, aggFilters.
  split; [|done]. unfold slots. fold aggStep. destruct aggStep.
  - rewrite bind_run, H4, !ret_run. cbn [console env3 env1]. by rewrite <- !app_assoc.
  - rewrite !ret_run. cbn [console env3 env1]. by rewrite app_nil_r.
Qed.

(** X6: [toWorkflow] throws if and only if [processExpression]
    throws on a computed field of [allFields]: the filters, the lists of
    the view and the other arguments cannot make it throw. *)
Theorem toWorkflow_throws_iff viewFilters allFields viewDimensionsRaw viewMeasuresRaw
    defaultAggregated sort folds limit :
  (toWorkflow_ viewFilters allFields viewDimensionsRaw viewMeasuresRaw
     defaultAggregated sort folds limit).1 = None
  ↔ processedFields allFields = None.
Proof.
  pose proof (toWorkflow_run viewFilters allFields viewDimensionsRaw viewMeasuresRaw
                defaultAggregated sort folds limit) as Hrun. cbv zeta in Hrun.
  destruct (processedFields allFields) as [processed|].
  - destruct Hrun as (? & ? & ? & -> & _). done.
  - by rewrite Hrun.
Qed.

(** X7: [toWorkflow] writes to the console the rules of unknown
    kinds of the filters it normalises, in their order: those of the
    filters before the transform, then, if [processExpression] did not
    throw, those of the filters after it and, when the step after the
    aggregation is emitted, those of its filters. *)
Theorem toWorkflow_console viewFilters allFields viewDimensionsRaw viewMeasuresRaw
    defaultAggregated sort folds limit :
  let vd := viewDimensions_ allFields viewDimensionsRaw viewMeasuresRaw folds in
  let vm := viewMeasures_ allFields viewDimensionsRaw viewMeasuresRaw folds in
  (toWorkflow_ viewFilters allFields viewDimensionsRaw viewMeasuresRaw
     defaultAggregated sort folds limit).2
  = unknown_rules (detailFilters viewFilters)
    ++ (if processedFields allFields is Some _ then
          unknown_rules (transformedFilters viewFilters)
          ++ (if aggergated viewFilters vd vm defaultAggregated && Nat.ltb 0 (length vd)
                 && Nat.ltb 0 (length (aggergatedFilter viewFilters))
              then unknown_rules (aggergatedFilter viewFilters) else [])
        else []).
Proof.
  intros vd vm.
  pose proof (toWorkflow_run viewFilters allFields viewDimensionsRaw viewMeasuresRaw
                defaultAggregated sort folds limit) as Hrun. cbv zeta in Hrun.
  destruct (processedFields allFields) as [processed|].
  - destruct Hrun as (? & ? & ? & -> & _). done.
  - rewrite Hrun. cbn. by rewrite app_nil_r.
Qed.

Lemma step_if_nonempty_cases {A : Type} (mk : list A → IDataQueryWorkflowStep) (l : list A) :
  step_if_nonempty mk l = Some (mk l) ∨ (step_if_nonempty mk l = None ∧ l = []).
Proof. destruct l; [right | left]; done. Qed.

Lemma slots_filter_fids viewFilters vd vm defaultAggregated sort limit
    filters computedFields computedFilters aggFilters :
  filter_fids (omap id (slots_ viewFilters vd vm defaultAggregated sort limit
                          filters computedFields computedFilters aggFilters))
  = (VisFilter.fid <$> filters) ++ (VisFilter.fid <$> computedFilters)
    ++ (if aggergated viewFilters vd vm defaultAggregated && Nat.ltb 0 (length vd)
           && Nat.ltb 0 (length (aggergatedFilter viewFilters))
        then VisFilter.fid <$> aggFilters else []).
Proof.
  unfold slots.
  destruct (step_if_nonempty_cases FilterStep filters) as [->|[-> ->]];
    destruct (step_if_nonempty_cases TransformStep computedFields) as [->|[-> ->]];
    destruct (step_if_nonempty_cases FilterStep computedFilters) as [->|[-> ->]];
    destruct (aggergated _ _ _ _ && _ && _); destruct (sorted sort limit);
    cbn; by rewrite ?app_nil_r.
Qed.

Lemma slots_transform_entries viewFilters vd vm defaultAggregated sort limit
    filters computedFields computedFilters aggFilters :
  transform_entries (omap id (slots_ viewFilters vd vm defaultAggregated sort limit
                                filters computedFields computedFilters aggFilters))
  = computedFields.
Proof.
  unfold slots.
  destruct (step_if_nonempty_cases FilterStep filters) as [->|[-> ->]];
    destruct (step_if_nonempty_cases TransformStep computedFields) as [->|[-> ->]];
    destruct (step_if_nonempty_cases FilterStep computedFilters) as [->|[-> ->]];
    destruct (aggergated _ _ _ _ && _ && _); destruct (sorted sort limit);
    cbn; by rewrite ?app_nil_r.
Qed.

(** X8: the filters of the filter steps of the workflow are, in
    this order, the filters with a rule that are neither computed nor
    scoped to the aggregation, those that are computed and not scoped to
    the aggregation and, only when the view aggregates and has a dimension,
    those that are scoped to the aggregation and have an aggregation
    function; each under its derived identifier.  A filter that is scoped
    to the aggregation and has no function is in no step. *)
Theorem toWorkflow_filter_steps viewFilters allFields viewDimensionsRaw viewMeasuresRaw
    defaultAggregated sort folds limit :
  is_Some (processedFields allFields) →
  let vd := viewDimensions_ allFields viewDimensionsRaw viewMeasuresRaw folds in
  let vm := viewMeasures_ allFields viewDimensionsRaw viewMeasuresRaw folds in
  ∃ steps log,
    toWorkflow_ viewFilters allFields viewDimensionsRaw viewMeasuresRaw
      defaultAggregated sort folds limit = (Some steps, log)
    ∧ filter_fids steps
      = (getFilterMeaAggKey <$> detailFilters viewFilters)
        ++ (getFilterMeaAggKey <$> transformedFilters viewFilters)
        ++ (if aggergated viewFilters vd vm defaultAggregated && Nat.ltb 0 (length vd)
            then getFilterMeaAggKey <$> aggergatedFilter viewFilters else []).
Proof.
  intros [processed Hprocessed] vd vm.
  pose proof (toWorkflow_run viewFilters allFields viewDimensionsRaw viewMeasuresRaw
                defaultAggregated sort folds limit) as Hrun. cbv zeta in Hrun.
  rewrite Hprocessed in Hrun. destruct Hrun as (fs & cfs & afs & -> & <- & <- & Hafs).
  eexists _, _. split; [reflexivity|]. rewrite slots_filter_fids. fold vd vm.
  do 2 f_equal. destruct (aggergated _ _ _ _ && _); [|done]. cbn [andb].
  rewrite <- Hafs. destruct (aggergatedFilter viewFilters); [|done].
  by rewrite Hafs.
Qed.

Lemma JSSet_fold_elem_of (s items : list string) (k : string) :
  k ∈ foldl (JSSet.add id) s items ↔ k ∈ s ∨ k ∈ items.
Proof.
  pose proof (JSSet_fold_idents id items s k) as H. by rewrite !list_fmap_id in H.
Qed.

(** X9: the transform step holds, in the order of [allFields], the
    computed fields whose identifier is that of a dimension, a measure or
    a filter of the view, or the derived identifier of a filter that goes
    before the transform, and no other; each with the expression that
    [processExpression] returns for it. *)
Theorem toWorkflow_transform_step viewFilters allFields viewDimensionsRaw viewMeasuresRaw
    defaultAggregated sort folds limit processed :
  processedFields allFields = Some processed →
  let vd := viewDimensions_ allFields viewDimensionsRaw viewMeasuresRaw folds in
  let vm := viewMeasures_ allFields viewDimensionsRaw viewMeasuresRaw folds in
  let used := (Obj.fid <$> vd) ++ (Obj.fid <$> vm) ++ (FilterField.fid <$> viewFilters)
              ++ (getFilterMeaAggKey <$> detailFilters viewFilters) in
  ∃ steps log,
    toWorkflow_ viewFilters allFields viewDimensionsRaw viewMeasuresRaw
      defaultAggregated sort folds limit = (Some steps, log)
    ∧ transform_entries steps = filter (fun t => Transform.key t ∈ used) processed
    ∧ Forall2 (fun f t => Transform.key t = Field.fid f
                          ∧ ∃ e, Field.expression f = Some e
                                 ∧ processExpression e = Some (Transform.expression t))
        (filter (fun f => Field.computed f && is_some (Field.expression f)) allFields)
        processed.
Proof.
  intros Hprocessed vd vm used.
  pose proof (toWorkflow_run viewFilters allFields viewDimensionsRaw viewMeasuresRaw
                defaultAggregated sort folds limit) as Hrun. cbv zeta in Hrun.
  rewrite Hprocessed in Hrun. destruct Hrun as (fs & cfs & afs & -> & _).
  eexists _, _. split; [reflexivity|]. split.
  - rewrite slots_transform_entries, treeShake_direct. apply list_filter_iff. intros t.
    rewrite JSSet_fold_elem_of.
    pose proof (JSSet_of_list_idents id ((Obj.fid <$> vd) ++ (Obj.fid <$> vm)
                  ++ (FilterField.fid <$> viewFilters)) (Transform.key t)) as Hinit.
    rewrite !list_fmap_id in Hinit. fold vd vm. rewrite Hinit.
    unfold used. rewrite !elem_of_app. tauto.
  - unfold processedFields in Hprocessed. apply mapM_Some_1 in Hprocessed.
    eapply Forall2_impl; [exact Hprocessed|]. intros f t Ht. cbn in Ht.
    destruct (Field.expression f) as [e|]; [|done]. cbn in Ht.
    destruct (processExpression e) as [e'|] eqn:He; [|done]. cbn in Ht.
    injection Ht as <-. cbn. eauto.
Qed.

Lemma aggregate_measure_keys viewFilters (vm : list Obj.t) (k : string) :
  k ∈ Measure.asFieldKey
        <$> deduper (toMeasure getMeaAggKey
                       <$> ((Obj.field <$> vm)
                            ++ (FilterField.field <$> aggergatedFilter viewFilters)))
              Measure.asFieldKey
  ↔ (∃ f, f ∈ vm ∧ k = getMeaAggKey (Obj.fid f) (Obj.aggName f))
    ∨ (∃ f, f ∈ aggergatedFilter viewFilters
            ∧ k = getMeaAggKey (FilterField.fid f) (FilterField.aggName f)).
Proof.
  rewrite deduper_keys_elem_of.
  rewrite <- list_fmap_compose, fmap_app, elem_of_app, <- !list_fmap_compose.
  rewrite !list_elem_of_fmap. split.
  - intros [(f & -> & ?)|(f & -> & ?)]; [left | right]; by exists f.
  - intros [(f & ? & ->)|(f & ? & ->)]; [left | right]; by exists f.
Qed.

(** X10: the aggregate view groups by the identifiers of the
    dimensions of the view, each once, and has one measure for every output
    key of a measure of the view or of a filter that is scoped to the
    aggregation, each key once, the key of a measure being that of its
    field and function. *)
Theorem toWorkflow_aggregate_view viewFilters allFields viewDimensionsRaw viewMeasuresRaw
    defaultAggregated sort folds limit :
  is_Some (processedFields allFields) →
  let vd := viewDimensions_ allFields viewDimensionsRaw viewMeasuresRaw folds in
  let vm := viewMeasures_ allFields viewDimensionsRaw viewMeasuresRaw folds in
  aggregation_triggers defaultAggregated viewFilters vd vm →
  ∃ steps log groupBy measures,
    toWorkflow_ viewFilters allFields viewDimensionsRaw viewMeasuresRaw
      defaultAggregated sort folds limit = (Some steps, log)
    ∧ view_steps steps = [ViewStep [Aggregate groupBy measures]]
    ∧ NoDup groupBy
    ∧ (∀ k, k ∈ groupBy ↔ k ∈ Obj.fid <$> vd)
    ∧ NoDup (Measure.asFieldKey <$> measures)
    ∧ (∀ m, m ∈ measures →
            Measure.asFieldKey m = getMeaAggKey (Measure.field m) (Measure.agg m))
    ∧ (∀ k, k ∈ Measure.asFieldKey <$> measures
            ↔ (∃ f, f ∈ vm ∧ k = getMeaAggKey (Obj.fid f) (Obj.aggName f))
              ∨ (∃ f, f ∈ aggergatedFilter viewFilters
                      ∧ k = getMeaAggKey (FilterField.fid f) (FilterField.aggName f))).
Proof.
  intros [processed Hprocessed] vd vm Hagg.
  destruct (toWorkflow_returns MEA_KEY_ID MEA_VAL_ID getMeaAggKey getFilterMeaAggKey
              Date_getTime Number_ viewFilters allFields viewDimensionsRaw
              viewMeasuresRaw defaultAggregated sort folds limit processed Hprocessed)
    as (filters & keys & computedFilters & aggFilters & log & Hrun).
  apply (aggergated_true MEA_KEY_ID getMeaAggKey getFilterMeaAggKey) in Hagg.
  eexists _, log, _, _. split; [exact Hrun|]. split.
  { rewrite slots_view_steps. fold vd vm. unfold viewQuery. rewrite Hagg. reflexivity. }
  pose proof (deduper_keys_NoDup (Obj.fid <$> vd) (fun x => x)) as Hnd.
  rewrite list_fmap_id in Hnd.
  split; [done|]. split.
  { intros k. pose proof (deduper_keys_elem_of (Obj.fid <$> vd) (fun x => x) k) as Hkeys.
    by rewrite !list_fmap_id in Hkeys. }
  split; [apply deduper_keys_NoDup|]. split.
  - intros m (f & -> & _)%deduper_subset%list_elem_of_fmap. done.
  - apply aggregate_measure_keys.
Qed.

(** X11: when the workflow has a sort step, the step sorts in the
    direction asked and by one key for every measure of the view, in their
    order: over an aggregate view by the output key of the measure, which
    is the key of a measure of the view step, and over a raw view by the
    identifier of the measure. *)
Theorem toWorkflow_sort_keys viewFilters allFields viewDimensionsRaw viewMeasuresRaw
    defaultAggregated sort folds limit :
  is_Some (processedFields allFields) →
  sort ≠ none → limited limit →
  let vm := viewMeasures_ allFields viewDimensionsRaw viewMeasuresRaw folds in
  ∃ steps log by_ query,
    toWorkflow_ viewFilters allFields viewDimensionsRaw viewMeasuresRaw
      defaultAggregated sort folds limit = (Some steps, log)
    ∧ sort_steps steps = [SortStep by_ sort]
    ∧ view_steps steps = [ViewStep [query]]
    ∧ match query with
      | Aggregate _ measures =>
          by_ = (fun f => getMeaAggKey (Obj.fid f) (Obj.aggName f)) <$> vm
          ∧ ∀ k, k ∈ by_ → k ∈ Measure.asFieldKey <$> measures
      | Raw _ => by_ = Obj.fid <$> vm
      end.
Proof.
  intros [processed Hprocessed] Hsort Hlimit vm.
  destruct (toWorkflow_returns MEA_KEY_ID MEA_VAL_ID getMeaAggKey getFilterMeaAggKey
              Date_getTime Number_ viewFilters allFields viewDimensionsRaw
              viewMeasuresRaw defaultAggregated sort folds limit processed Hprocessed)
    as (filters & keys & computedFilters & aggFilters & log & Hrun).
  assert (sorted sort limit = true) as Hsorted by (by apply sorted_true).
  eexists _, log, _, _. split; [exact Hrun|].
  rewrite slots_sort_steps, slots_view_steps, Hsorted. fold vm.
  split; [reflexivity|]. split; [reflexivity|].
  unfold viewQuery. destruct (aggergated _ _ _ _); [|done].
  split; [done|]. intros k (f & -> & Hf)%list_elem_of_fmap.
  apply aggregate_measure_keys. left. by exists f.
Qed.

End RunFacts.

(** ** More on the merge operations *)

(** A list has a first element that passes a test, or none that does. *)
Lemma first_split {A : Type} (test : A → bool) (l : list A) :
  (∃ before a after, l = before ++ a :: after
                     ∧ Forall (fun b => test b = false) before ∧ test a = true)
  ∨ Forall (fun b => test b = false) l.
Proof.
  induction l as [|a l IH]; [by right|].
  destruct (test a) eqn:Ha.
  - left. exists [], a, l. by repeat split.
  - destruct IH as [(before & b & after & -> & Hbefore & Hb)|Hall].
    + left. exists (a :: before), b, after. repeat split; [|done]. by constructor.
    + right. by constructor.
Qed.

Lemma addFilterForQuery_first (query : IDataQueryPayload) (filters : list IVisFilter)
    (before : list IDataQueryWorkflowStep) (x : list IVisFilter)
    (after : list IDataQueryWorkflowStep) :
  filters ≠ [] →
  Payload.workflow query = before ++ FilterStep x :: after →
  Forall (fun step => is_filter step = false) before →
  addFilterForQuery query filters
  = {| Payload.workflow := before ++ FilterStep (filters ++ x) :: after;
       Payload.limit := Payload.limit query |}.
Proof.
  intros Hne Hw Hbefore. unfold addFilterForQuery.
  destruct filters as [|v filters]; [done|]. cbn [length Nat.eqb].
  rewrite Hw, findIndex_first; [|done..].
  destruct (Z.ltb_spec (-1) (Z.of_nat (length before))) as [_|]; [|lia].
  f_equal. rewrite imap_at.
  - by rewrite Z.eqb_refl.
  - intros i step Hi. destruct step; try done.
    destruct (Z.eqb_spec (Z.of_nat i) (Z.of_nat (length before))); [lia | done].
Qed.

Lemma addFilterForQuery_absent (query : IDataQueryPayload) (filters : list IVisFilter) :
  filters ≠ [] →
  Forall (fun step => is_filter step = false) (Payload.workflow query) →
  addFilterForQuery query filters
  = {| Payload.workflow := FilterStep filters :: Payload.workflow query;
       Payload.limit := Payload.limit query |}.
Proof.
  intros Hne Hnone. unfold addFilterForQuery.
  destruct filters as [|v filters]; [done|]. cbn [length Nat.eqb].
  by rewrite findIndex_none.
Qed.

(** X13: with a list of new filters that is not empty,
    [addFilterForQuery] puts the new filters ahead of the filters of the
    first filter step of the workflow, and leaves the other steps and the
    limit as they are; when the workflow has no filter step, the new list
    becomes a filter step ahead of all the steps. *)
Theorem addFilterForQuery_merge (query : IDataQueryPayload) (filters : list IVisFilter) :
  filters ≠ [] →
  (∀ before x after,
     Payload.workflow query = before ++ FilterStep x :: after →
     Forall (fun step => step_type step ≠ filter_) before →
     addFilterForQuery query filters
     = {| Payload.workflow := before ++ FilterStep (filters ++ x) :: after;
          Payload.limit := Payload.limit query |})
  ∧ (Forall (fun step => step_type step ≠ filter_) (Payload.workflow query) →
     addFilterForQuery query filters
     = {| Payload.workflow := FilterStep filters :: Payload.workflow query;
          Payload.limit := Payload.limit query |}).
Proof.
  intros Hne. split.
  - intros before x after Hw Hbefore. apply addFilterForQuery_first; [done..|].
    eapply Forall_impl; [exact Hbefore|]. intros step Hs. unfold is_filter.
    by apply bool_decide_eq_false.
  - intros Hnone. apply addFilterForQuery_absent; [done|].
    eapply Forall_impl; [exact Hnone|]. intros step Hs. unfold is_filter.
    by apply bool_decide_eq_false.
Qed.

(** X14: merging filters in two calls is merging them in one: the
    filters of the second call go ahead of those of the first. *)
Theorem addFilterForQuery_twice (query : IDataQueryPayload) (f1 f2 : list IVisFilter) :
  addFilterForQuery (addFilterForQuery query f1) f2 = addFilterForQuery query (f2 ++ f1).
Proof.
  destruct f1 as [|v1 f1]; [by rewrite app_nil_r|].
  destruct f2 as [|v2 f2]; [done|].
  set (g1 := v1 :: f1). set (g2 := v2 :: f2).
  assert (g1 ≠ []) as H1 by done. assert (g2 ≠ []) as H2 by done.
  assert (g2 ++ g1 ≠ []) as H21 by done. clearbody g1 g2.
  destruct (first_split is_filter (Payload.workflow query))
    as [(before & a & after & Hw & Hbefore & Ha)|Hnone].
  - destruct a as [x| | |]; try done.
    rewrite (addFilterForQuery_first query g1 before x after) by done.
    rewrite (addFilterForQuery_first query (g2 ++ g1) before x after) by done.
    rewrite (addFilterForQuery_first _ g2 before (g1 ++ x) after) by done.
    cbn. by rewrite app_assoc.
  - rewrite (addFilterForQuery_absent query g1) by done.
    rewrite (addFilterForQuery_absent query (g2 ++ g1)) by done.
    by rewrite (addFilterForQuery_first _ g2 [] g1 (Payload.workflow query)).
Qed.

Lemma addTransformForQuery_first (query : IDataQueryPayload) (transform : list ITransform)
    (before : list IDataQueryWorkflowStep) (x : list ITransform)
    (after : list IDataQueryWorkflowStep) :
  transform ≠ [] →
  Payload.workflow query = before ++ TransformStep x :: after →
  Forall (fun step => is_transform step = false) before →
  addTransformForQuery query transform
  = {| Payload.workflow :=
         before
         ++ TransformStep (x ++ filter (fun t => Transform.key t ∉ Transform.key <$> x)
                                  transform) :: after;
       Payload.limit := Payload.limit query |}.
Proof.
  intros Hne Hw Hbefore. unfold addTransformForQuery.
  destruct transform as [|t transform]; [done|]. cbn [length Nat.eqb].
  rewrite Hw, findIndex_first; [|done..].
  destruct (Z.ltb_spec (-1) (Z.of_nat (length before))) as [_|]; [|lia].
  f_equal. rewrite imap_at.
  - rewrite Z.eqb_refl.
    erewrite (list_filter_iff _ (fun t => Transform.key t ∉ Transform.key <$> x));
      [done|].
    intros t'. by rewrite elem_of_list_to_set.
  - intros i step Hi. destruct step; try done.
    destruct (Z.eqb_spec (Z.of_nat i) (Z.of_nat (length before))); [lia | done].
Qed.

Lemma addTransformForQuery_absent (query : IDataQueryPayload) (transform : list ITransform) :
  transform ≠ [] →
  Forall (fun step => is_transform step = false) (Payload.workflow query) →
  addTransformForQuery query transform
  = {| Payload.workflow := TransformStep transform :: Payload.workflow query;
       Payload.limit := Payload.limit query |}.
Proof.
  intros Hne Hnone. unfold addTransformForQuery.
  destruct transform as [|t transform]; [done|]. cbn [length Nat.eqb].
  by rewrite findIndex_none.
Qed.

(** X15: merging the same transforms a second time changes nothing:
    after a merge the first transform step has every key of the new
    list. *)
Theorem addTransformForQuery_idempotent (query : IDataQueryPayload)
    (transform : list ITransform) :
  addTransformForQuery (addTransformForQuery query transform) transform
  = addTransformForQuery query transform.
Proof.
  destruct transform as [|t0 ts]; [done|].
  set (t := t0 :: ts). assert (t ≠ []) as Hne by done. clearbody t.
  assert (∀ x, filter (fun e => Transform.key e
                         ∉ Transform.key
                             <$> x ++ filter (fun e => Transform.key e ∉ Transform.key <$> x) t)
                 t = []) as Hnone.
  { intros x. apply elem_of_nil_inv. intros e [Hnin Hin]%list_elem_of_filter.
    apply Hnin. rewrite fmap_app, elem_of_app.
    destruct (decide (Transform.key e ∈ Transform.key <$> x)); [by left|].
    right. apply list_elem_of_fmap_2. by apply list_elem_of_filter. }
  destruct (first_split is_transform (Payload.workflow query))
    as [(before & a & after & Hw & Hbefore & Ha)|Habsent].
  - destruct a as [|x| |]; try done.
    rewrite (addTransformForQuery_first query t before x after) by done.
    erewrite (addTransformForQuery_first _ t before _ after); [|done|reflexivity|done].
    cbn. by rewrite Hnone, app_nil_r.
  - rewrite (addTransformForQuery_absent query t) by done.
    erewrite (addTransformForQuery_first _ t [] t); [|done|reflexivity|done].
    assert (filter (fun e => Transform.key e ∉ Transform.key <$> t) t = []) as ->.
    { apply elem_of_nil_inv. intros e [Hnin Hin]%list_elem_of_filter.
      apply Hnin. by apply list_elem_of_fmap_2. }
    cbn. by rewrite app_nil_r.
Qed.

(** ** More on the paint compaction *)

Lemma compactDict_returns (value : Paint.IPaintMap) (d : gmap N Paint.Entry) :
  compactDict value = Some d → resolvable value.
Proof.
  unfold compactDict, resolvable. destruct (Paint.usedColor value) as [used|]; [|done].
  cbn [mbind option_bind].
  destruct (mapM _ used) as [entries|] eqn:Hentries; [|done]. intros _.
  exists used. split; [done|]. intros i Hi.
  apply mapM_Some_1 in Hentries.
  apply list_elem_of_lookup in Hi as [n Hn].
  destruct (Forall2_lookup_l _ _ _ _ _ Hentries Hn) as (y & _ & Hy).
  destruct (decide (i = 255%N)) as [->|Hne]; [by left|]. right.
  rewrite lookup_insert_ne in Hy by done.
  destruct (Paint.dict value !! i); [by eexists | done].
Qed.

(** X16: [processExpression] throws if and only if the operator is
    ['paint'] and a map among the parameters has no list of used colours, or
    uses a colour other than 255 that its dictionary does not have. *)
Theorem processExpression_throws_iff (exp : IExpression) :
  processExpression exp = None
  ↔ op exp = "paint" ∧ ∃ value, PMap value ∈ params exp ∧ ¬ resolvable value.
Proof.
  unfold processExpression. destruct (String.eqb_spec (op exp) "paint") as [Hop|Hop].
  2:{ split; [done | by intros [? _]]. }
  split.
  - intros Hnone. split; [done|].
    destruct (mapM processParam (params exp)) as [ps|] eqn:Hps; [done|].
    assert (¬ Forall (fun x => is_Some (processParam x)) (params exp)) as Hnot.
    { intros Hall. apply mapM_is_Some in Hall as [? Hsome]. congruence. }
    apply not_Forall_Exists in Hnot; [|intros x; apply _].
    apply Exists_exists in Hnot as (x & Hin & Hx).
    destruct x as [f|e|value|t v]; try (exfalso; apply Hx; by eexists).
    exists value. split; [done|]. intros Hres. apply Hx.
    destruct (processParam_compacted (PMap value)) as (x' & -> & _); [|by eexists].
    by intros ? [= <-].
  - intros (_ & value & Hin & Hres).
    destruct (mapM processParam (params exp)) as [ps|] eqn:Hps; [|done].
    exfalso. apply Hres. apply mapM_Some_1 in Hps.
    apply list_elem_of_lookup in Hin as [n Hn].
    destruct (Forall2_lookup_l _ _ _ _ _ Hps Hn) as (y & _ & Hy).
    cbn in Hy. destruct (compactDict value) as [d|] eqn:Hd; [|done].
    by eapply compactDict_returns.
Qed.

(** X17: the map that [processExpression] builds has no list of
    used colours, so the pass cannot run on its own result: on a ['paint']
    expression with a map among its parameters, a second pass throws. *)
Theorem processExpression_twice_throws (exp exp' : IExpression) :
  op exp = "paint" →
  (∃ value, PMap value ∈ params exp) →
  processExpression exp = Some exp' →
  processExpression exp' = None.
Proof.
  intros Hop (value & Hin) Hexp. unfold processExpression in Hexp. rewrite Hop in Hexp.
  cbn [String.eqb] in Hexp.
  destruct (mapM processParam (params exp)) as [ps|] eqn:Hps; [|done].
  injection Hexp as <-.
  unfold processExpression. cbn [op params]. rewrite String.eqb_refl.
  apply mapM_Some_1 in Hps.
  apply list_elem_of_lookup in Hin as [n Hn].
  destruct (Forall2_lookup_l _ _ _ _ _ Hps Hn) as (y & Hy & Hvalue).
  cbn in Hvalue. destruct (compactDict value) as [d|]; [|done]. injection Hvalue as <-.
  destruct (mapM processParam ps) as [ps'|] eqn:Hps'; [|done]. exfalso.
  apply mapM_Some_1 in Hps'.
  destruct (Forall2_lookup_l _ _ _ _ _ Hps' Hy) as (z & _ & Hz). done.
Qed.

(** ** [chartToWorkflow] *)

Section ChartFacts.
Variables MEA_KEY_ID MEA_VAL_ID : string.
Variable getMeaAggKey : string → option string → string.
Variable getFilterMeaAggKey : IFilterField → string.
Variable Date_getTime : option Literal → number.
Variable Number_ : option Literal → number.
Variable IChartForExport : Type.
Variable decodeVisSpec : IChartForExport → Chart.t.
Variable viewEncodingKeys : string → list string.
Variable getSort : list Obj.t → list Obj.t → SortDirection.

Local Abbreviation chartToWorkflow_ :=
  (chartToWorkflow MEA_KEY_ID MEA_VAL_ID getMeaAggKey getFilterMeaAggKey Date_getTime
     Number_ IChartForExport decodeVisSpec viewEncodingKeys getSort).

(** X18: when [processExpression] returns on the computed fields of
    the chart, [chartToWorkflow] returns a payload.  The payload has the
    limit of the chart when that limit is greater than 0, and no limit
    otherwise.  Its workflow has a sort step if and only if [getSort]
    gives a direction and the chart has a limit that is none of [0], [NaN]
    and [-1]: a chart without a limit is never sorted, and a payload with
    a limit is sorted exactly when [getSort] gives a direction. *)
Theorem chartToWorkflow_limit (chart : IChartForExport) :
  let c := decodeVisSpec chart in
  let sort := getSort (channel c "rows") (channel c "columns") in
  is_Some (processedFields (chartFields c)) →
  ∃ payload log,
    chartToWorkflow_ chart = (Some payload, log)
    ∧ (∀ n, Payload.limit payload = Some n
            ↔ Chart.config c ≫= Chart.limit = Some n ∧ number_gt0 n = true)
    ∧ (sort_steps (Payload.workflow payload) ≠ []
       ↔ sort ≠ none
         ∧ ∃ n, Chart.config c ≫= Chart.limit = Some n
                ∧ n ≠ Num 0 ∧ n ≠ NaN ∧ n ≠ Num (-1))
    ∧ (Chart.config c ≫= Chart.limit = None → sort_steps (Payload.workflow payload) = [])
    ∧ (is_Some (Payload.limit payload) →
       (sort_steps (Payload.workflow payload) ≠ [] ↔ sort ≠ none)).
Proof.
  intros c sort [processed Hprocessed]. unfold chartToWorkflow. cbv zeta. fold c sort.
  set (viewFilters := default [] _). set (dims := filter _ _). set (meas := filter _ _).
  set (defaultAggregated := default true _). set (folds := default [] _).
  destruct (toWorkflow_returns MEA_KEY_ID MEA_VAL_ID getMeaAggKey getFilterMeaAggKey
              Date_getTime Number_ viewFilters (chartFields c) dims meas
              defaultAggregated sort folds (Some (chartLimit c)) processed Hprocessed)
    as (filters & keys & computedFilters & aggFilters & log & ->).
  eexists _, log. split; [reflexivity|]. cbn [Payload.limit Payload.workflow].
  rewrite slots_sort_steps.
  assert (sorted sort (Some (chartLimit c)) = true
          ↔ sort ≠ none
            ∧ ∃ n, Chart.config c ≫= Chart.limit = Some n
                   ∧ n ≠ Num 0 ∧ n ≠ NaN ∧ n ≠ Num (-1)) as Hsorted.
  { rewrite sorted_true. unfold limited, chartLimit. apply and_iff_compat_l.
    destruct (Chart.config c ≫= Chart.limit) as [n|]; cbn [default from_option]; unfold id.
    - split; intros (n' & [= <-] & ?); eauto.
    - split; [intros (n' & [= <-] & _ & _ & ?); done | intros (n' & ? & _); done]. }
  assert (∀ n, (if number_gt0 (chartLimit c) then Some (chartLimit c) else None) = Some n
               ↔ Chart.config c ≫= Chart.limit = Some n ∧ number_gt0 n = true) as Hlimit.
  { intros n. unfold chartLimit.
    destruct (Chart.config c ≫= Chart.limit) as [m|]; cbn [default from_option]; unfold id.
    - destruct (number_gt0 m) eqn:Hm; split.
      + by intros [= <-].
      + by intros [[= <-] _].
      + done.
      + intros [[= <-] ?]. congruence.
    - split; [done | by intros [? _]]. }
  split; [exact Hlimit|]. split; [|split].
  - rewrite <- Hsorted. by destruct (sorted sort (Some (chartLimit c))).
  - intros Hnone. destruct (sorted sort (Some (chartLimit c))) eqn:Hs; [|done].
    destruct (proj1 Hsorted eq_refl) as (_ & n & Hn & _). congruence.
  - intros [n Hn]. apply Hlimit in Hn as [Hn Hpos].
    assert (sorted sort (Some (chartLimit c)) = true ↔ sort ≠ none) as <-.
    { rewrite Hsorted. split; [by intros [? _]|]. intros Hsort. split; [done|].
      exists n. split; [done|]. destruct n as [z| | |]; try done. cbn in Hpos.
      apply Z.ltb_lt in Hpos. repeat split; intros [= ->]; lia. }
    by destruct (sorted sort (Some (chartLimit c))).
Qed.
End ChartFacts.

(** ** Examples of the further properties *)

Lemma deduper_idempotent_witness :
  deduper ["a"; "b"] (fun x => x) = ["a"; "b"]
  ∧ deduper (deduper ["a"; "b"] (fun x => x)) (fun x => x)
    = deduper ["a"; "b"] (fun x => x).
Proof.
  destruct (deduper_idempotent ["a"; "b"] (fun x => x)) as [Hfixed Hagain].
  split; [|exact Hagain]. apply Hfixed.
  apply (bool_decide_unpack _). vm_compute. reflexivity.
Defined.

(** The last of the items of a key takes the place of the first. *)
Example deduper_example :
  deduper [Measure.mk "a_b" (Some "c") "a_b_c"; Measure.mk "d" None "d";
           Measure.mk "a" (Some "b_c") "a_b_c"] Measure.asFieldKey
  = [Measure.mk "a" (Some "b_c") "a_b_c"; Measure.mk "d" None "d"].
Proof. reflexivity. Qed.

Lemma createFilter_known_rule_witness :
  ∃ v,
    Sample.createFilter Cases.range_filter Sample.env0
    = (Some v, {| viewKeys := ["region"; "profit"]; console := [] |})
    ∧ VisFilter.fid v = "profit"
    ∧ Rule.type (VisFilter.rule v) = "range"
    ∧ Rule.value (VisFilter.rule v) = [LNumber (Num 1); LNumber (Num 5)].
Proof.
  destruct (createFilter_known_rule Sample.getFilterMeaAggKey Sample.toNumber Sample.toNumber
              Cases.range_filter Cases.range_rule Sample.env0)
    as (v & Hv & Hfid & Htype & _ & Hrange & _).
  - reflexivity.
  - apply list_elem_of_further, list_elem_of_further, list_elem_of_further,
      list_elem_of_here.
  - exists v. split; [exact Hv|]. split; [exact Hfid|]. split; [exact Htype|].
    apply Hrange. reflexivity.
Defined.

Lemma toWorkflow_filter_steps_witness :
  ∃ steps log,
    Sample.toWorkflow [Cases.sum_filter; Sample.regexp_filter; Cases.range_filter]
      Cases.allFields
      [Obj.mk (Obj.Given 0) Sample.region] [Obj.mk (Obj.Given 1) Sample.sales]
      true none [] None = (Some steps, log)
    ∧ filter_fids steps = ["region"; "profit"; "sales_sum"].
Proof.
  apply (toWorkflow_filter_steps Sample.MEA_KEY_ID Sample.MEA_VAL_ID Sample.getMeaAggKey
           Sample.getFilterMeaAggKey Sample.toNumber Sample.toNumber
           [Cases.sum_filter; Sample.regexp_filter; Cases.range_filter] Cases.allFields
           [Obj.mk (Obj.Given 0) Sample.region] [Obj.mk (Obj.Given 1) Sample.sales]
           true none [] None).
  by eexists.
Defined.

Lemma toWorkflow_transform_step_witness :
  ∃ steps log,
    Sample.toWorkflow [] Cases.allFields
      [Obj.mk (Obj.Given 0) Sample.region] [Obj.mk (Obj.Given 1) Cases.log_profit]
      true none [] None = (Some steps, log)
    ∧ transform_entries steps
      = [Transform.mk "log_profit" (mkExpression "log2" [PField "profit"] "log_profit")].
Proof.
  destruct (toWorkflow_transform_step Sample.MEA_KEY_ID Sample.MEA_VAL_ID Sample.getMeaAggKey
              Sample.getFilterMeaAggKey Sample.toNumber Sample.toNumber
              [] Cases.allFields
              [Obj.mk (Obj.Given 0) Sample.region] [Obj.mk (Obj.Given 1) Cases.log_profit]
              true none [] None
              [Transform.mk "log_profit" (mkExpression "log2" [PField "profit"] "log_profit");
               Transform.mk "unused" (mkExpression "log2" [PField "sales"] "unused")])
    as (steps & log & Hrun & Hentries & _).
  - reflexivity.
  - exists steps, log. split; [exact Hrun|]. rewrite Hentries. vm_compute. reflexivity.
Defined.

Lemma toWorkflow_aggregate_view_witness :
  ∃ steps log groupBy measures,
    Sample.toWorkflow [] Sample.allFields
      [Obj.mk (Obj.Given 0) Sample.region; Obj.mk (Obj.Given 1) Sample.region]
      [Obj.mk (Obj.Given 2) Sample.sales]
      true none [] None = (Some steps, log)
    ∧ view_steps steps = [ViewStep [Aggregate groupBy measures]]
    ∧ NoDup groupBy
    ∧ NoDup (Measure.asFieldKey <$> measures).
Proof.
  destruct (toWorkflow_aggregate_view Sample.MEA_KEY_ID Sample.MEA_VAL_ID Sample.getMeaAggKey
              Sample.getFilterMeaAggKey Sample.toNumber Sample.toNumber
              [] Sample.allFields
              [Obj.mk (Obj.Given 0) Sample.region; Obj.mk (Obj.Given 1) Sample.region]
              [Obj.mk (Obj.Given 2) Sample.sales]
              true none [] None)
    as (steps & log & groupBy & measures & Hrun & Hview & Hg & _ & Hm & _).
  - by eexists.
  - split; [reflexivity|]. left. exists (Obj.mk (Obj.Given 2) Sample.sales).
    split; [apply list_elem_of_here | reflexivity].
  - by exists steps, log, groupBy, measures.
Defined.

Lemma toWorkflow_sort_keys_witness :
  ∃ steps log by_ query,
    Sample.toWorkflow [] Sample.allFields
      [Obj.mk (Obj.Given 0) Sample.region] [Obj.mk (Obj.Given 1) Sample.sales]
      true descending [] (Some (Num 10)) = (Some steps, log)
    ∧ sort_steps steps = [SortStep by_ descending]
    ∧ view_steps steps = [ViewStep [query]].
Proof.
  destruct (toWorkflow_sort_keys Sample.MEA_KEY_ID Sample.MEA_VAL_ID Sample.getMeaAggKey
              Sample.getFilterMeaAggKey Sample.toNumber Sample.toNumber
              [] Sample.allFields
              [Obj.mk (Obj.Given 0) Sample.region] [Obj.mk (Obj.Given 1) Sample.sales]
              true descending [] (Some (Num 10)))
    as (steps & log & by_ & query & Hrun & Hsort & Hview & _).
  - by eexists.
  - discriminate.
  - exists (Num 10). by repeat split.
  - by exists steps, log, by_, query.
Defined.


Lemma addFilterForQuery_merge_witness :
  addFilterForQuery Cases.filtered_query [VisFilter.mk "region" Sample.regexp_rule]
  = {| Payload.workflow :=
         [TransformStep [merge_x];
          FilterStep [VisFilter.mk "region" Sample.regexp_rule;
                      VisFilter.mk "profit" Cases.range_rule];
          ViewStep [Raw ["profit"; "x"]]];
       Payload.limit := Some (Num 10) |}.
Proof.
  destruct (addFilterForQuery_merge Cases.filtered_query
              [VisFilter.mk "region" Sample.regexp_rule]) as [Hfirst _]; [done|].
  apply (Hfirst [TransformStep [merge_x]] [VisFilter.mk "profit" Cases.range_rule]
           [ViewStep [Raw ["profit"; "x"]]]); [reflexivity|].
  repeat constructor. discriminate.
Defined.

Lemma processExpression_twice_throws_witness :
  ∃ exp', processExpression paintExample = Some exp' ∧ processExpression exp' = None.
Proof.
  eexists. split; [vm_compute; reflexivity|].
  apply (processExpression_twice_throws paintExample).
  - reflexivity.
  - exists paintValue. apply list_elem_of_here.
  - vm_compute. reflexivity.
Defined.

(** A bar chart with the limit 20: the payload has the limit, and its
    workflow is sorted. *)
Lemma chartToWorkflow_limit_witness :
  ∃ payload log,
    Cases.chartToWorkflow Cases.chart = (Some payload, log)
    ∧ Payload.limit payload = Some (Num 20)
    ∧ sort_steps (Payload.workflow payload) ≠ [].
Proof.
  destruct (chartToWorkflow_limit Sample.MEA_KEY_ID Sample.MEA_VAL_ID Sample.getMeaAggKey
              Sample.getFilterMeaAggKey Sample.toNumber Sample.toNumber
              Chart.t (fun chart => chart) Cases.viewEncodingKeys Cases.getSort Cases.chart)
    as (payload & log & Hrun & Hlimit & Hsort & _).
  - by eexists.
  - exists payload, log. split; [exact Hrun|]. split.
    + apply Hlimit. split; reflexivity.
    + apply Hsort. split; [discriminate|]. exists (Num 20). by repeat split.
Defined.

Example chartToWorkflow_example :
  Cases.chartToWorkflow Cases.chart
  = (Some {| Payload.workflow :=
               [ViewStep [Aggregate ["region"] [Measure.mk "sales" (Some "sum") "sales_sum"]];
                SortStep ["sales_sum"] descending];
             Payload.limit := Some (Num 20) |}, []).
Proof. vm_compute. reflexivity. Qed.
